(** * Hierarchy-flattening processor of the standards taxonomy

    A shallow embedding of [tools/models.py], [tools/pinecone_models.py] and
    [tools/pinecone_processor.py], and the properties of the processor that
    the specification states about them.

    Conventions of the embedding:
    - a Python [str] is a [string]; a character stands for a code point
      below 256;
    - a Python [int] is a [Z];
    - [Optional[T]] is [option T], with [None] for Python's [None];
    - the ordered dict [standards] is the list of its items in iteration
      order; dicts that are only looked up by key are [gmap]s and Python
      sets are [gset]s;
    - a call that may raise returns a [result], [inl] holding the exception;
    - a [while] loop is its step function run by [while_loop] under a bound
      on the number of iterations, and the theorems show which bound is
      always enough. *)

From stdpp Require Import base list strings gmap pretty sorting.
From Stdlib Require Import Ascii ZArith Lia.

Set Warnings "-register-all".
Local Open Scope Z_scope.

(** ** Python strings *)

Module PyStr.

(** Truthiness of an [Optional[str]]: neither [None] nor empty. *)
Definition truthy (v : option string) : bool :=
  match v with
  | Some s => negb (String.eqb s "")
  | None => false
  end.

(** [str.isspace] on the code points below 256. *)
Definition is_space (c : ascii) : bool :=
  let n := Z.of_N (N_of_ascii c) in
  ((9 <=? n) && (n <=? 13)) || ((28 <=? n) && (n <=? 32))
  || (n =? 133) || (n =? 160).

Fixpoint lstrip (s : string) : string :=
  match s with
  | String c s' => if is_space c then lstrip s' else s
  | EmptyString => EmptyString
  end.

Fixpoint rstrip (s : string) : string :=
  match s with
  | EmptyString => EmptyString
  | String c s' =>
      match rstrip s' with
      | EmptyString => if is_space c then EmptyString else String c EmptyString
      | r => String c r
      end
  end.

(** [s.strip()] *)
Definition strip (s : string) : string := rstrip (lstrip s).

(** [s.split(sep)] for a one-character separator: never an empty list. *)
Fixpoint split (sep : ascii) (s : string) : list string :=
  match s with
  | EmptyString => [EmptyString]
  | String c s' =>
      if Ascii.eqb c sep then EmptyString :: split sep s'
      else match split sep s' with
           | w :: ws => String c w :: ws
           | [] => [String c EmptyString]
           end
  end.

(** [sep.join(lines)] *)
Fixpoint join (sep : string) (lines : list string) : string :=
  match lines with
  | [] => ""
  | [l] => l
  | l :: ls => l +:+ sep +:+ join sep ls
  end.

Definition newline : string := String (ascii_of_nat 10) EmptyString.
Definition comma : ascii := ascii_of_nat 44.

(** [f"{n}"] for an [int]. *)
Definition of_int (n : Z) : string := pretty n.

End PyStr.

(** ** Exceptions *)

(** A location inside a validated value, as Pydantic reports it: the path of
    keys down to the offending field. *)
Definition loc : Type := list string.

(** What a [ValueError] of [process_and_save] reports. *)
Inductive value_error : Type :=
  | InvalidJSON
  | FailedToParse (locs : list loc).

Inductive error : Type :=
  | FileNotFoundError
  | ValidationError (locs : list loc)
  | KeyError (key : string)
  | ValueError (msg : value_error).

Definition result (A : Type) : Type := error + A.

Definition ok {A} (a : A) : result A := inr a.
Definition raise {A} (e : error) : result A := inl e.

Definition bind {A B} (r : result A) (k : A → result B) : result B :=
  match r with
  | inl e => inl e
  | inr a => k a
  end.

Notation "x ←! r ; k" := (bind r (fun x => k))
  (at level 20, r at level 100, k at level 200, right associativity,
   format "x  ←!  r ;  '/' k").

(** A [for] loop whose body may raise: the first exception ends it. *)
Fixpoint for_each {A B} (body : A → result B) (l : list A) : result (list B) :=
  match l with
  | [] => ok []
  | a :: l' => b ←! body a; bs ←! for_each body l'; ok (b :: bs)
  end.

(** ** JSON documents *)

Inductive json : Type :=
  | JNull
  | JBool (b : bool)
  | JInt (n : Z)
  | JStr (s : string)
  | JArr (items : list json)
  | JObj (members : list (string * json)).

Definition JStrs (l : list string) : json := JArr (JStr <$> l).

(** Keys of an object, in order; a non-object has none. *)
Definition json_keys (j : json) : list string :=
  match j with
  | JObj members => members.*1
  | _ => []
  end.

(** Value under a key of an object. *)
Fixpoint members_get (k : string) (members : list (string * json)) : option json :=
  match members with
  | [] => None
  | (k', v) :: rest => if String.eqb k k' then Some v else members_get k rest
  end.

Definition json_get (k : string) (j : json) : option json :=
  match j with
  | JObj members => members_get k members
  | _ => None
  end.

(** ** [tools/models.py] *)

Record Document : Type := mkDocument {
  doc_id : option string;
  doc_title : string;
  doc_valid : option string;
  doc_sourceURL : option string;
  doc_asnIdentifier : option string;
  doc_publicationStatus : option string;
}.

Record JurisdictionRef : Type := mkJurisdictionRef {
  jur_id : string;
  jur_title : string;
}.

Record Standard : Type := mkStandard {
  std_id : string;
  std_asnIdentifier : option string;
  std_position : Z;
  std_depth : Z;
  std_statementNotation : option string;
  std_description : string;
  std_ancestorIds : list string;
  std_parentId : option string;
  std_statementLabel : option string;
  std_educationLevels : option (list string);
}.

#[global] Instance Standard_eq_dec : EqDecision Standard.
Proof. solve_decision. Defined.

(** A node as it stands in the parsed JSON, before validation: a required
    field is [None] when its key is missing or holds a value of another
    type. *)
Record RawStandard : Type := mkRawStandard {
  raw_id : option string;
  raw_asnIdentifier : option string;
  raw_position : option Z;
  raw_depth : option Z;
  raw_statementNotation : option string;
  raw_description : option string;
  raw_ancestorIds : option (list string);
  raw_parentId : option string;
  raw_statementLabel : option string;
  raw_educationLevels : option (list string);
}.

(** [StandardSet], over the type of its nodes: [Standard] once validated,
    [RawStandard] in the parsed JSON.  [license] and [cspStatus] are not
    read by the processor and are left out. *)
Record StandardSetOf (N : Type) : Type := mkStandardSet {
  set_id : string;
  set_title : string;
  set_subject : string;
  set_normalizedSubject : option string;
  set_educationLevels : list string;
  set_document : Document;
  set_jurisdiction : JurisdictionRef;
  set_standards : list (string * N);
}.
Arguments mkStandardSet {N}.
Arguments set_id {N}.
Arguments set_title {N}.
Arguments set_subject {N}.
Arguments set_normalizedSubject {N}.
Arguments set_educationLevels {N}.
Arguments set_document {N}.
Arguments set_jurisdiction {N}.
Arguments set_standards {N}.

Abbreviation StandardSet := (StandardSetOf Standard).
Abbreviation RawStandardSet := (StandardSetOf RawStandard).

(** The required fields of [Standard] that a raw node lacks. *)
Definition missing_fields (r : RawStandard) : list string :=
  (if raw_id r is Some _ then [] else ["id"])
  ++ (if raw_position r is Some _ then [] else ["position"])
  ++ (if raw_depth r is Some _ then [] else ["depth"])
  ++ (if raw_description r is Some _ then [] else ["description"])
  ++ (if raw_ancestorIds r is Some _ then [] else ["ancestorIds"]).

(** Validation of one node by the [Standard] model. *)
Definition validate_standard (r : RawStandard) : option Standard :=
  match raw_id r, raw_position r, raw_depth r, raw_description r, raw_ancestorIds r with
  | Some i, Some p, Some d, Some t, Some a =>
      Some {| std_id := i; std_asnIdentifier := raw_asnIdentifier r;
              std_position := p; std_depth := d;
              std_statementNotation := raw_statementNotation r;
              std_description := t; std_ancestorIds := a;
              std_parentId := raw_parentId r;
              std_statementLabel := raw_statementLabel r;
              std_educationLevels := raw_educationLevels r |}
  | _, _, _, _, _ => None
  end.

(** Every failure of the [standards] mapping, node by node in order. *)
Definition validation_errors (standards : list (string * RawStandard)) : list loc :=
  flat_map (λ '(k, r), (λ f, ["data"; "standards"; k; f]) <$> missing_fields r)
           standards.

(** Construction of [StandardSetResponse] from the parsed JSON and access
    to its [data]: the whole set validates or the call raises one
    [ValidationError] listing every failure. *)
Definition validate_standard_set (raw : RawStandardSet) : result StandardSet :=
  match mapM (λ '(k, r), s ← validate_standard r; Some (k, s)) (set_standards raw) with
  | Some standards =>
      ok {| set_id := set_id raw; set_title := set_title raw;
            set_subject := set_subject raw;
            set_normalizedSubject := set_normalizedSubject raw;
            set_educationLevels := set_educationLevels raw;
            set_document := set_document raw;
            set_jurisdiction := set_jurisdiction raw;
            set_standards := standards |}
  | None => raise (ValidationError (validation_errors (set_standards raw)))
  end.

(** ** [tools/pinecone_models.py] *)

Record PineconeRecord : Type := mkPineconeRecord {
  rec_id : string;
  rec_content : string;
  rec_standard_set_id : string;
  rec_standard_set_title : string;
  rec_subject : string;
  rec_normalized_subject : option string;
  rec_education_levels : list string;
  rec_document_id : string;
  rec_document_valid : string;
  rec_publication_status : option string;
  rec_jurisdiction_id : string;
  rec_jurisdiction_title : string;
  rec_asn_identifier : option string;
  rec_statement_notation : option string;
  rec_statement_label : option string;
  rec_depth : Z;
  rec_is_leaf : bool;
  rec_is_root : bool;
  rec_parent_id : option string;
  rec_root_id : string;
  rec_ancestor_ids : list string;
  rec_child_ids : list string;
  rec_sibling_count : Z;
}.

Record ProcessedStandardSet : Type := mkProcessedStandardSet {
  records : list PineconeRecord;
}.

(** The value handed to the [education_levels] validator, which runs before
    type validation and therefore sees any value. *)
Inductive py_item : Type :=
  | PyStrItem (s : string)
  | PyOtherItem.

Inductive py_value : Type :=
  | PyList (items : list py_item)
  | PyNotList.

(** The comprehension over [item.split] on commas: the pieces that are not
    empty once stripped, stripped. *)
Definition split_items (item : string) : list string :=
  PyStr.strip <$> filter (λ s, PyStr.strip s ≠ "") (PyStr.split PyStr.comma item).

(** The first loop of the validator: strings are split and their pieces
    appended, any other element is skipped. *)
Definition flatten_levels (v : list py_item) : list string :=
  foldl (λ flattened item,
           match item with
           | PyStrItem s => flattened ++ split_items s
           | PyOtherItem => flattened
           end) [] v.

(** The second loop: [seen] and [result] grow together. *)
Definition dedupe_step (st : gset string * list string) (item : string)
  : gset string * list string :=
  let '(seen, result) := st in
  if bool_decide (item ∈ seen) then (seen, result)
  else ({[item]} ∪ seen, result ++ [item]).

Definition dedupe (flattened : list string) : list string :=
  (foldl dedupe_step (∅, []) flattened).2.

Definition process_education_levels (v : py_value) : list string :=
  match v with
  | PyNotList => []
  | PyList items => dedupe (flatten_levels items)
  end.

(** [model_dump(mode="json", by_alias=..., exclude_none=...)] of one record:
    the fields in declaration order.  The identifier goes under its
    serialization alias only when [by_alias] is set, and a field holding
    [None] is dropped only when [exclude_none] is set. *)
Definition dump_optional (exclude_none : bool) (key : string) (v : option string)
  : list (string * json) :=
  match v with
  | Some s => [(key, JStr s)]
  | None => if exclude_none then [] else [(key, JNull)]
  end.

Definition record_model_dump (by_alias exclude_none : bool) (r : PineconeRecord) : json :=
  JObj (
    [ ((if by_alias then "_id" else "id"), JStr (rec_id r));
      ("content", JStr (rec_content r));
      ("standard_set_id", JStr (rec_standard_set_id r));
      ("standard_set_title", JStr (rec_standard_set_title r));
      ("subject", JStr (rec_subject r)) ]
    ++ dump_optional exclude_none "normalized_subject" (rec_normalized_subject r)
    ++ [ ("education_levels", JStrs (rec_education_levels r));
         ("document_id", JStr (rec_document_id r));
         ("document_valid", JStr (rec_document_valid r)) ]
    ++ dump_optional exclude_none "publication_status" (rec_publication_status r)
    ++ [ ("jurisdiction_id", JStr (rec_jurisdiction_id r));
         ("jurisdiction_title", JStr (rec_jurisdiction_title r)) ]
    ++ dump_optional exclude_none "asn_identifier" (rec_asn_identifier r)
    ++ dump_optional exclude_none "statement_notation" (rec_statement_notation r)
    ++ dump_optional exclude_none "statement_label" (rec_statement_label r)
    ++ [ ("depth", JInt (rec_depth r));
         ("is_leaf", JBool (rec_is_leaf r));
         ("is_root", JBool (rec_is_root r)) ]
    ++ dump_optional exclude_none "parent_id" (rec_parent_id r)
    ++ [ ("root_id", JStr (rec_root_id r));
         ("ancestor_ids", JStrs (rec_ancestor_ids r));
         ("child_ids", JStrs (rec_child_ids r));
         ("sibling_count", JInt (rec_sibling_count r)) ]).

Definition model_dump (by_alias exclude_none : bool) (p : ProcessedStandardSet) : json :=
  JObj [("records", JArr (record_model_dump by_alias exclude_none <$> records p))].

(** The arguments [model_dump] takes when the call names none. *)
Definition default_by_alias : bool := false.
Definition default_exclude_none : bool := false.

(** ** [tools/pinecone_processor.py] *)

(** *** Loops *)

Section WhileLoop.
Context {St R : Type}.

(** One iteration: either the state of the next one or, when the loop is
    left, its outcome. *)
Variable step : St → St + R.

(** At most [fuel] iterations; with the outcome comes the number of times
    the loop went round again. *)
Fixpoint while_loop (fuel : nat) (s : St) : option (R * nat) :=
  match fuel with
  | O => None
  | S fuel' =>
      match step s with
      | inr r => Some (r, O)
      | inl s' =>
          match while_loop fuel' s' with
          | Some (r, n) => Some (r, S n)
          | None => None
          end
      end
  end.
End WhileLoop.

(** [sorted(children, key=lambda x: x[0])]: Python's sort is stable, and a
    stable sort has one possible outcome, that of this insertion sort. *)
Fixpoint insert_by_position (x : Z * string) (l : list (Z * string)) : list (Z * string) :=
  match l with
  | [] => [x]
  | y :: l' => if x.1 <=? y.1 then x :: y :: l' else y :: insert_by_position x l'
  end.

Definition sorted (children : list (Z * string)) : list (Z * string) :=
  foldr insert_by_position [] children.

(** *** The processor and its relationship maps *)

Record StandardSetProcessor : Type := mkProcessor {
  id_to_standard : gmap string Standard;
  parent_to_children : gmap (option string) (list string);
  leaf_nodes : gset string;
  root_nodes : gset string;
}.

Definition _build_id_to_standard_map (standards : list (string * Standard))
  : gmap string Standard :=
  foldl (λ m '(std_id, std), <[std_id := std]> m) ∅ standards.

(** The grouping pass of [_build_parent_to_children_map]. *)
Definition group_by_parent (standards : list (string * Standard))
  : gmap (option string) (list (Z * string)) :=
  foldl (λ parent_map '(std_id, std),
           let parent_id := std_parentId std in
           let position := std_position std in
           <[parent_id := default [] (parent_map !! parent_id) ++ [(position, std_id)]]>
             parent_map)
        ∅ standards.

Definition _build_parent_to_children_map (standards : list (string * Standard))
  : gmap (option string) (list string) :=
  (λ children, (sorted children).*2) <$> group_by_parent standards.

Definition parent_ids_of (standards : list (string * Standard)) : gset string :=
  list_to_set (omap (λ '(_, std), std_parentId std) standards).

Definition _identify_leaf_nodes (standards : list (string * Standard)) : gset string :=
  let all_ids : gset string := list_to_set standards.*1 in
  all_ids ∖ parent_ids_of standards.

Definition _identify_root_nodes (standards : list (string * Standard)) : gset string :=
  list_to_set (filter (λ '(_, std), std_parentId std = None) standards).*1.

Definition _build_relationship_maps (standards : list (string * Standard))
  : StandardSetProcessor :=
  {| id_to_standard := _build_id_to_standard_map standards;
     parent_to_children := _build_parent_to_children_map standards;
     leaf_nodes := _identify_leaf_nodes standards;
     root_nodes := _identify_root_nodes standards |}.

(** *** Hierarchy functions *)

(** The body of the loop of [find_root_id], on [(current, visited)]. *)
Definition find_root_step (id_to_standard : gmap string Standard)
    (st : Standard * gset string) : Standard * gset string + string :=
  let '(current, visited) := st in
  match std_parentId current with
  | None => inr (std_id current)
  | Some parent_id =>
      if bool_decide (parent_id ∈ visited) then inr (std_id current)
      else
        let visited := {[parent_id]} ∪ visited in
        match id_to_standard !! parent_id with
        | None => inr (std_id current)
        | Some parent => inl (parent, visited)
        end
  end.

Definition find_root_loop (fuel : nat) (standard : Standard)
    (id_to_standard : gmap string Standard) : option (string * nat) :=
  while_loop (find_root_step id_to_standard) fuel (standard, ∅).

(** [find_root_id]; the loop always ends within the bound given here
    ([find_root_loop_terminates]), so the last branch is never taken. *)
Definition find_root_id (standard : Standard) (id_to_standard : gmap string Standard)
  : string :=
  match find_root_loop (S (size id_to_standard)) standard id_to_standard with
  | Some (root, _) => root
  | None => std_id standard
  end.

(** The state of the loop of [build_ordered_ancestors]. *)
Record ancestors_state : Type := mkAncestorsState {
  current_id : option string;
  visited : gset string;
  ancestors : list string;
}.

Definition ancestors_step (id_to_standard : gmap string Standard)
    (st : ancestors_state) : ancestors_state + list string :=
  match current_id st with
  | None => inr (ancestors st)
  | Some cur =>
      if bool_decide (cur ∈ visited st) then inr (ancestors st)
      else
        let visited := {[cur]} ∪ visited st in
        match id_to_standard !! cur with
        | Some node =>
            inl {| current_id := std_parentId node;
                   visited := visited;
                   ancestors := ancestors st ++ [cur] |}
        | None => inr (ancestors st)
        end
  end.

Definition ancestors_loop (fuel : nat) (standard : Standard)
    (id_to_standard : gmap string Standard) : option (list string * nat) :=
  while_loop (ancestors_step id_to_standard) fuel
    {| current_id := std_parentId standard; visited := ∅; ancestors := [] |}.

(** [build_ordered_ancestors]; as for [find_root_id], the loop always ends
    within the bound ([ancestors_loop_terminates]). *)
Definition build_ordered_ancestors (standard : Standard)
    (id_to_standard : gmap string Standard) : list string :=
  match ancestors_loop (S (size id_to_standard)) standard id_to_standard with
  | Some (ancestors, _) => reverse ancestors
  | None => []
  end.

Definition _compute_sibling_count (self : StandardSetProcessor) (standard : Standard) : Z :=
  match parent_to_children self !! std_parentId standard with
  | None => 0
  | Some siblings =>
      Z.of_nat (length (filter (λ s, s ≠ std_id standard) siblings))
  end.

(** *** Content text *)

(** One line of the content text. *)
Definition content_line (node : Standard) : string :=
  if PyStr.truthy (std_statementNotation node) then
    "Depth " +:+ PyStr.of_int (std_depth node)
    +:+ " (" +:+ default "" (std_statementNotation node) +:+ "): "
    +:+ std_description node
  else
    "Depth " +:+ PyStr.of_int (std_depth node) +:+ ": " +:+ std_description node.

(** Subscripting the map by an ancestor id raises [KeyError] when absent. *)
Definition ancestor_line (id_to_standard : gmap string Standard) (ancestor_id : string)
  : result string :=
  match id_to_standard !! ancestor_id with
  | Some ancestor => ok (content_line ancestor)
  | None => raise (KeyError ancestor_id)
  end.

Definition _build_content_text (self : StandardSetProcessor) (standard : Standard)
  : result string :=
  let ancestor_ids := build_ordered_ancestors standard (id_to_standard self) in
  lines ←! for_each (ancestor_line (id_to_standard self)) ancestor_ids;
  let lines := lines ++ [content_line standard] in
  ok (PyStr.join PyStr.newline lines).

(** *** Record transformation *)

Definition if_truthy (v : option string) : option string :=
  if PyStr.truthy v then v else None.

Definition required_str (field : string) (v : option string) : list loc :=
  if v is Some _ then [] else [[field]].

Definition _transform_standard (self : StandardSetProcessor) (standard : Standard)
    (standard_set : StandardSet) : result PineconeRecord :=
  let std_dict := standard in
  let is_root := bool_decide (std_parentId std_dict = None) in
  let root_id :=
    if is_root then std_id std_dict
    else find_root_id std_dict (id_to_standard self) in
  let ancestor_ids := build_ordered_ancestors std_dict (id_to_standard self) in
  let child_ids := default [] (parent_to_children self !! Some (std_id std_dict)) in
  let is_leaf := bool_decide (std_id std_dict ∈ leaf_nodes self) in
  let sibling_count := _compute_sibling_count self std_dict in
  content ←! _build_content_text self std_dict;
  let parent_id := std_parentId std_dict in
  (* construction of the record: the two document fields are typed [str]
     and the document holds them as [Optional[str]] *)
  match doc_id (set_document standard_set), doc_valid (set_document standard_set) with
  | Some document_id, Some document_valid =>
      ok {| rec_id := std_id std_dict;
            rec_content := content;
            rec_standard_set_id := set_id standard_set;
            rec_standard_set_title := set_title standard_set;
            rec_subject := set_subject standard_set;
            rec_normalized_subject := set_normalizedSubject standard_set;
            rec_education_levels :=
              process_education_levels
                (PyList (PyStrItem <$> set_educationLevels standard_set));
            rec_document_id := document_id;
            rec_document_valid := document_valid;
            rec_publication_status := doc_publicationStatus (set_document standard_set);
            rec_jurisdiction_id := jur_id (set_jurisdiction standard_set);
            rec_jurisdiction_title := jur_title (set_jurisdiction standard_set);
            rec_asn_identifier := if_truthy (std_asnIdentifier std_dict);
            rec_statement_notation := if_truthy (std_statementNotation std_dict);
            rec_statement_label := if_truthy (std_statementLabel std_dict);
            rec_depth := std_depth std_dict;
            rec_is_leaf := is_leaf;
            rec_is_root := is_root;
            rec_parent_id := parent_id;
            rec_root_id := root_id;
            rec_ancestor_ids := ancestor_ids;
            rec_child_ids := child_ids;
            rec_sibling_count := sibling_count |}
  | d, v =>
      raise (ValidationError (required_str "document_id" d
                              ++ required_str "document_valid" v))
  end.

Definition process_standard_set (standard_set : StandardSet) : result ProcessedStandardSet :=
  let self := _build_relationship_maps (set_standards standard_set) in
  records ←! for_each (λ '(std_id, standard),
                         _transform_standard self standard standard_set)
                      (set_standards standard_set);
  ok {| records := records |}.

(** *** Load, process, save *)

(** What [process_and_save] finds at [data.json]. *)
Inductive data_file : Type :=
  | NoFile
  | NotJSON
  | ParsedJSON (raw : RawStandardSet).

(** [process_and_save], returning the document written to
    [processed.json]. *)
Definition process_and_save (data : data_file) : result json :=
  match data with
  | NoFile => raise FileNotFoundError
  | NotJSON => raise (ValueError InvalidJSON)
  | ParsedJSON raw =>
      match validate_standard_set raw with
      | inl (ValidationError locs) => raise (ValueError (FailedToParse locs))
      | inl _ => raise (ValueError (FailedToParse []))
      | inr standard_set =>
          processed_set ←! process_standard_set standard_set;
          ok (model_dump default_by_alias default_exclude_none processed_set)
      end
  end.

(** ** [tools/pinecone_client.py] *)

Definition optional_fields : list string :=
  [ "asn_identifier"; "statement_notation"; "statement_label";
    "normalized_subject"; "publication_status"; "parent_id" ].

Definition is_null (j : json) : bool :=
  match j with
  | JNull => true
  | _ => false
  end.

(** [_record_to_dict], the dict handed to the index on upload: dumped by
    alias, then every optional field holding [None] is popped. *)
Definition _record_to_dict (record : PineconeRecord) : json :=
  match record_model_dump true false record with
  | JObj members =>
      JObj (filter (λ '(field, value),
                      ¬ (field ∈ optional_fields ∧ is_null value = true))
                   members)
  | j => j
  end.

(** [_record_to_dict] of [src/pinecone_client.py], whose optional fields
    also count the two document fields. *)
Module McpClient.

Definition optional_fields : list string :=
  [ "asn_identifier"; "statement_notation"; "statement_label";
    "normalized_subject"; "publication_status"; "parent_id";
    "document_id"; "document_valid" ].

Definition _record_to_dict (record : PineconeRecord) : json :=
  match record_model_dump true false record with
  | JObj members =>
      JObj (filter (λ '(field, value),
                      ¬ (field ∈ optional_fields ∧ is_null value = true))
                   members)
  | j => j
  end.

End McpClient.

(** *** Upload with retries *)

(** What a call to the index comes to: a value, a [PineconeException] with
    its [status] attribute if it has one, or another exception. *)
Inductive call_outcome (A : Type) : Type :=
  | Returned (a : A)
  | RaisedPinecone (status : option Z)
  | RaisedOther.
Arguments Returned {A}.
Arguments RaisedPinecone {A}.
Arguments RaisedOther {A}.

(** [status_code and (status_code >= 500 or status_code == 429)] *)
Definition retryable (status : option Z) : bool :=
  match status with
  | Some code => negb (code =? 0) && ((500 <=? code) || (code =? 429))
  | None => false
  end.

Inductive retry_event : Type :=
  | Called (attempt : nat)
  | Slept (seconds : Z).

(** The outcome of [exponential_backoff_retry], [Returned None] standing
    for the end of the loop without a [return], and what it did on the
    way. *)
Record retry_run (A : Type) : Type := mkRetryRun {
  run_outcome : call_outcome (option A);
  run_trace : list retry_event;
}.
Arguments mkRetryRun {A}.
Arguments run_outcome {A}.
Arguments run_trace {A}.

(** The loop over the attempts that are left; [func attempt] is what the
    call made in that attempt comes to. *)
Fixpoint retry_attempts {A} (func : nat → call_outcome A) (max_retries : Z)
    (attempts : list nat) : retry_run A :=
  match attempts with
  | [] => {| run_outcome := Returned None; run_trace := [] |}
  | attempt :: rest =>
      match func attempt with
      | Returned a =>
          {| run_outcome := Returned (Some a); run_trace := [Called attempt] |}
      | RaisedPinecone status =>
          if retryable status then
            if Z.of_nat attempt <? max_retries - 1 then
              let delay := Z.min (2 ^ Z.of_nat attempt) 60 in
              let run := retry_attempts func max_retries rest in
              {| run_outcome := run_outcome run;
                 run_trace := Called attempt :: Slept delay :: run_trace run |}
            else
              {| run_outcome := RaisedPinecone status;
                 run_trace := [Called attempt] |}
          else
            {| run_outcome := RaisedPinecone status;
               run_trace := [Called attempt] |}
      | RaisedOther =>
          {| run_outcome := RaisedOther; run_trace := [Called attempt] |}
      end
  end.

Definition exponential_backoff_retry {A} (func : nat → call_outcome A)
    (max_retries : Z) : retry_run A :=
  retry_attempts func max_retries (seq 0 (Z.to_nat max_retries)).

Definition default_max_retries : Z := 5.

Inductive upload_error : Type :=
  | ZeroDivisionError
  | PineconeException (status : option Z)
  | OtherException.

Inductive upload_event : Type :=
  | UpsertRecords (records : list json)
  | Backoff (seconds : Z)
  | Pause.

Definition upload_event_of (batch_dicts : list json) (e : retry_event) : upload_event :=
  match e with
  | Called _ => UpsertRecords batch_dicts
  | Slept seconds => Backoff seconds
  end.

(** The attempts in which a call was made. *)
Definition attempts_of (trace : list retry_event) : list nat :=
  omap (λ e, match e with Called attempt => Some attempt | Slept _ => None end)
       trace.

Definition calls_of (trace : list retry_event) : nat :=
  length (attempts_of trace).

(** [range(0, stop, step)] for a step that is not zero. *)
Definition range_from_zero (stop : nat) (step : Z) : list nat :=
  if 0 <? step then
    (λ k, k * Z.to_nat step)%nat
      <$> seq 0 (Z.to_nat ((Z.of_nat stop + step - 1) `div` step))
  else [].

(** The loop of [batch_upsert] over the starts that are left.
    [upsert_records n records] is what the [n]-th call of the run to the
    index comes to. *)
Fixpoint upsert_batches (upsert_records : nat → list json → call_outcome unit)
    (records : list PineconeRecord) (batch_size : Z) (starts : list nat)
    (calls : nat) : (upload_error + unit) * list upload_event :=
  match starts with
  | [] => (inr (), [])
  | i :: rest =>
      let batch := take (Z.to_nat batch_size) (drop i records) in
      let batch_dicts := _record_to_dict <$> batch in
      let run :=
        exponential_backoff_retry
          (λ attempt, upsert_records (calls + attempt)%nat batch_dicts)
          default_max_retries in
      let events := upload_event_of batch_dicts <$> run_trace run in
      match run_outcome run with
      | Returned _ =>
          let pause :=
            if Z.of_nat i + batch_size <? Z.of_nat (length records)
            then [Pause] else [] in
          let '(outcome, later) :=
            upsert_batches upsert_records records batch_size rest
              (calls + calls_of (run_trace run))%nat in
          (outcome, events ++ pause ++ later)
      | RaisedPinecone status => (inl (PineconeException status), events)
      | RaisedOther => (inl OtherException, events)
      end
  end.

Definition batch_upsert (upsert_records : nat → list json → call_outcome unit)
    (records : list PineconeRecord) (batch_size : Z)
  : (upload_error + unit) * list upload_event :=
  match records with
  | [] => (inr (), [])
  | _ =>
      if batch_size =? 0 then (inl ZeroDivisionError, [])
      else
        upsert_batches upsert_records records batch_size
          (range_from_zero (length records) batch_size) 0
  end.

Definition default_batch_size : Z := 96.

(** ** [tools/api_client.py] *)

Record StandardSetReference : Type := mkStandardSetReference {
  ref_id : string;
  ref_title : string;
  ref_subject : string;
  ref_educationLevels : list string;
  ref_document : Document;
}.

(** [needle in hay] on strings. *)
Fixpoint contains (needle hay : string) : bool :=
  String.prefix needle hay
  || match hay with
     | EmptyString => false
     | String _ hay' => contains needle hay'
     end.

Section FilterStandardSet.

(** [str.lower] and [str.upper].  Upper-casing takes some characters out of
    the code points below 256, so the two are left open: what is proved of
    the filter holds whatever they are. *)
Variables lower upper : string → string.

Definition _filter_standard_set (standard_set : StandardSetReference)
    (education_levels : option (list string))
    (publication_status valid_year title_search subject_search : option string)
  : bool :=
  let no_common_level :=
    match education_levels with
    | Some (level :: levels) =>
        let set_levels : gset string :=
          list_to_set (upper <$> ref_educationLevels standard_set) in
        let filter_levels : gset string :=
          list_to_set (upper <$> level :: levels) in
        bool_decide (set_levels ∩ filter_levels = ∅)
    | _ => false
    end in
  if no_common_level then false
  else if PyStr.truthy publication_status
          && PyStr.truthy (doc_publicationStatus (ref_document standard_set))
          && negb (String.eqb
                     (lower (default "" (doc_publicationStatus
                                           (ref_document standard_set))))
                     (lower (default "" publication_status)))
  then false
  else if PyStr.truthy valid_year
          && negb (bool_decide (doc_valid (ref_document standard_set) = valid_year))
  then false
  else if PyStr.truthy title_search
          && negb (contains (lower (default "" title_search))
                            (lower (ref_title standard_set)))
  then false
  else if PyStr.truthy subject_search
          && negb (contains (lower (default "" subject_search))
                            (lower (ref_subject standard_set)))
  then false
  else true.

(** [download_standard_sets_by_jurisdiction], from the references of the
    jurisdiction on: [standard_sets] is [jurisdiction_data.standardSets].
    [download_standard_set n set_id] tells whether the [n]-th download of
    the run, asked for [set_id], returns; a download that raises is logged
    and the loop goes on. *)
Fixpoint download_each (download_standard_set : nat → string → bool)
    (filtered_sets : list StandardSetReference) (calls : nat) : list string :=
  match filtered_sets with
  | [] => []
  | standard_set :: rest =>
      let set_id := ref_id standard_set in
      if download_standard_set calls set_id
      then set_id :: download_each download_standard_set rest (S calls)
      else download_each download_standard_set rest (S calls)
  end.

Definition download_standard_sets_by_jurisdiction
    (download_standard_set : nat → string → bool)
    (standard_sets : list StandardSetReference)
    (education_levels : option (list string))
    (publication_status valid_year title_search subject_search : option string)
  : list string :=
  let filtered_sets :=
    filter (λ s, Is_true (_filter_standard_set s education_levels
                            publication_status valid_year title_search
                            subject_search))
           standard_sets in
  download_each download_standard_set filtered_sets 0.

End FilterStandardSet.

(** ** Scenarios *)

Module Scenario.

(** A node with the fields the scenarios vary. *)
Definition node (id : string) (position depth : Z) (description : string)
    (notation parent : option string) : Standard :=
  {| std_id := id; std_asnIdentifier := None; std_position := position;
     std_depth := depth; std_statementNotation := notation;
     std_description := description; std_ancestorIds := [];
     std_parentId := parent; std_statementLabel := None;
     std_educationLevels := None |}.

(** The three-node chain: R, its child C1 and C1's child C2. *)
Definition R : Standard := node "R" 100000 0 "Math" None None.
Definition C1 : Standard := node "C1" 101000 1 "Numbers" (Some "1.1") (Some "R").
Definition C2 : Standard :=
  node "C2" 102000 2 "Count to 10" (Some "1.1.A") (Some "C1").

Definition chain : list (string * Standard) := [("R", R); ("C1", C1); ("C2", C2)].

Definition standard_set_of {N} (standards : list (string * N)) : StandardSetOf N :=
  {| set_id := "SET_ID"; set_title := "Grade 1"; set_subject := "Mathematics";
     set_normalizedSubject := Some "Math"; set_educationLevels := ["01"];
     set_document :=
       {| doc_id := Some "DOC_ID"; doc_title := "Test Document";
          doc_valid := Some "2021"; doc_sourceURL := None;
          doc_asnIdentifier := None; doc_publicationStatus := Some "Published" |};
     set_jurisdiction := {| jur_id := "JUR_ID"; jur_title := "Test State" |};
     set_standards := standards |}.

(** A node whose parent id names no node of the tree. *)
Definition orphan : Standard := node "O" 1 1 "Orphan" None (Some "MISSING").
Definition orphan_tree : list (string * Standard) := [("O", orphan)].

(** A node that names itself as its parent. *)
Definition loop : Standard := node "A" 1 0 "Loop" None (Some "A").
Definition loop_tree : list (string * Standard) := [("A", loop)].

(** Two nodes that name each other as parent. *)
Definition A : Standard := node "A" 1 0 "a" None (Some "B").
Definition B : Standard := node "B" 2 1 "b" None (Some "A").
Definition cycle : list (string * Standard) := [("A", A); ("B", B)].

(** A parent whose children come at positions 300, 100, 200 and 100. *)
Definition P : Standard := node "P" 1 0 "Parent" None None.
Definition siblings : list (string * Standard) :=
  [ ("a", node "a" 300 1 "a" None (Some "P"));
    ("b", node "b" 100 1 "b" None (Some "P"));
    ("c", node "c" 200 1 "c" None (Some "P"));
    ("d", node "d" 100 1 "d" None (Some "P"));
    ("P", P) ].

(** The parsed JSON of a node that validates. *)
Definition raw (standard : Standard) : RawStandard :=
  {| raw_id := Some (std_id standard);
     raw_asnIdentifier := std_asnIdentifier standard;
     raw_position := Some (std_position standard);
     raw_depth := Some (std_depth standard);
     raw_statementNotation := std_statementNotation standard;
     raw_description := Some (std_description standard);
     raw_ancestorIds := Some (std_ancestorIds standard);
     raw_parentId := std_parentId standard;
     raw_statementLabel := std_statementLabel standard;
     raw_educationLevels := std_educationLevels standard |}.

(** A tree of one root, with neither notation nor label. *)
Definition root_only : RawStandardSet := standard_set_of [("R", raw R)].

(** The root and a child whose JSON has no [description]. *)
Definition no_description : RawStandard :=
  {| raw_id := Some "C1"; raw_asnIdentifier := None; raw_position := Some 101000;
     raw_depth := Some 1; raw_statementNotation := Some "1.1";
     raw_description := None; raw_ancestorIds := Some ["R"];
     raw_parentId := Some "R"; raw_statementLabel := None;
     raw_educationLevels := None |}.
Definition malformed : RawStandardSet :=
  standard_set_of [("R", raw R); ("C1", no_description)].

End Scenario.

(** ** Auxiliary notions of the proofs *)

(** The ids of the map that a walk has not been through yet. *)
Definition unvisited (id_to_standard : gmap string Standard) (visited : gset string)
  : gset string :=
  dom id_to_standard ∖ visited.

(** Every node of the map is stored under its own id, as in a tree loaded
    from the API. *)
Definition keys_are_ids (id_to_standard : gmap string Standard) : Prop :=
  map_Forall (λ key node, std_id node = key) id_to_standard.

(** The children of a parent id, in the order the nodes are iterated, each
    with its position. *)
Definition children_of (parent_id : option string) (standards : list (string * Standard))
  : list (Z * string) :=
  (λ '(std_id, std), (std_position std, std_id))
    <$> filter (λ '(_, std), std_parentId std = parent_id) standards.

(** Ascending positions. *)
Definition ascending (children : list (Z * string)) : Prop :=
  StronglySorted (λ c c', c.1 ≤ c'.1) children.

(** The members at one position, in order. *)
Definition at_position (position : Z) (children : list (Z * string))
  : list (Z * string) :=
  filter (λ c, c.1 = position) children.

(** The strings among the items handed to the validator. *)
Definition strings_of (items : list py_item) : list string :=
  omap (λ item, match item with PyStrItem s => Some s | PyOtherItem => None end) items.

(** Each element kept where it is first seen, later repeats dropped. *)
Fixpoint first_seen (l : list string) : list string :=
  match l with
  | [] => []
  | x :: l' => x :: filter (λ y, y ≠ x) (first_seen l')
  end.

(** The normalization of [education_levels] in the words of the
    specification: flatten the strings, splitting each on commas; trim
    every element; drop the empty ones; deduplicate, keeping the order in
    which elements are first seen. *)
Definition normalized_levels (levels : list string) : list string :=
  first_seen
    (filter (λ s, s ≠ "")
       (PyStr.strip <$> (levels ≫= PyStr.split PyStr.comma))).

(** The JSON value of an [Optional[str]]. *)
Definition nullable (v : option string) : json :=
  match v with
  | Some s => JStr s
  | None => JNull
  end.

(** The keys of a dumped record when nothing is excluded and no alias is
    used: the names of the fields, in declaration order. *)
Definition field_names : list string :=
  [ "id"; "content"; "standard_set_id"; "standard_set_title"; "subject";
    "normalized_subject"; "education_levels"; "document_id"; "document_valid";
    "publication_status"; "jurisdiction_id"; "jurisdiction_title";
    "asn_identifier"; "statement_notation"; "statement_label"; "depth";
    "is_leaf"; "is_root"; "parent_id"; "root_id"; "ancestor_ids";
    "child_ids"; "sibling_count" ].

(** The parent id of the node stored under an id, if there is one. *)
Definition parent_of (id_to_standard : gmap string Standard) (std_id : string)
  : option string :=
  id_to_standard !! std_id ≫= std_parentId.

(** The id a walk that has been through [walked], nearest first, looks at
    next. *)
Definition next_of (id_to_standard : gmap string Standard) (standard : Standard)
    (walked : list string) : option string :=
  match last walked with
  | None => std_parentId standard
  | Some std_id => parent_of id_to_standard std_id
  end.

(** Each id of the list is followed by the parent id of its node. *)
Definition linked (id_to_standard : gmap string Standard) (walked : list string)
  : Prop :=
  ∀ i x y, walked !! i = Some x → walked !! S i = Some y →
           parent_of id_to_standard x = Some y.

(** What the loop of [build_ordered_ancestors] keeps true. *)
Definition walk_invariant (id_to_standard : gmap string Standard)
    (standard : Standard) (st : ancestors_state) : Prop :=
  NoDup (ancestors st)
  ∧ (∀ a, a ∈ visited st ↔ a ∈ ancestors st)
  ∧ Forall (λ a, is_Some (id_to_standard !! a)) (ancestors st)
  ∧ linked id_to_standard (ancestors st)
  ∧ current_id st = next_of id_to_standard standard (ancestors st).

(** What holds of the ids walked through once the loop is left. *)
Definition walk_outcome (id_to_standard : gmap string Standard)
    (standard : Standard) (walked : list string) : Prop :=
  NoDup walked
  ∧ Forall (λ a, is_Some (id_to_standard !! a)) walked
  ∧ linked id_to_standard walked
  ∧ match next_of id_to_standard standard walked with
    | None => True
    | Some parent_id =>
        parent_id ∈ walked ∨ id_to_standard !! parent_id = None
    end.

(** Whether a character is in a string. *)
Fixpoint has_char (c : ascii) (s : string) : bool :=
  match s with
  | EmptyString => false
  | String c' s' => Ascii.eqb c' c || has_char c s'
  end.

(** Whether a string begins, or ends, with white space. *)
Definition begins_with_space (s : string) : bool :=
  match s with
  | EmptyString => false
  | String c _ => PyStr.is_space c
  end.

Fixpoint ends_with_space (s : string) : bool :=
  match s with
  | EmptyString => false
  | String c EmptyString => PyStr.is_space c
  | String _ s' => ends_with_space s'
  end.



(** The outcome of the retry when the call that ends it comes to [o]. *)
Definition final_outcome {A} (o : call_outcome A) : call_outcome (option A) :=
  match o with
  | Returned a => Returned (Some a)
  | RaisedPinecone status => RaisedPinecone status
  | RaisedOther => RaisedOther
  end.

(** The calls that fail and the sleeps that follow them, from attempt
    [first] on, [count] times. *)
Definition failed_attempts (first count : nat) : list retry_event :=
  seq first count ≫= λ attempt,
    [Called attempt; Slept (Z.min (2 ^ Z.of_nat attempt) 60)].

(** An outcome after which the retry calls again, in an attempt that is
    not the last. *)
Definition tried_again {A} (o : call_outcome A) : Prop :=
  ∃ status, o = RaisedPinecone status ∧ retryable status = true.

(** The batches that [batch_upsert] cuts the records into. *)
Definition batches_of (records : list PineconeRecord) (batch_size : Z)
  : list (list PineconeRecord) :=
  (λ i, take (Z.to_nat batch_size) (drop i records))
    <$> range_from_zero (length records) batch_size.

(** The lists of records handed to the index, call after call. *)
Definition upserts_of (events : list upload_event) : list (list json) :=
  omap (λ e, match e with UpsertRecords records => Some records | _ => None end)
       events.

(** What [batch_upsert] comes to when the retries of a batch end. *)
Definition upload_result (o : call_outcome (option unit)) : upload_error + unit :=
  match o with
  | Returned _ => inr ()
  | RaisedPinecone status => inl (PineconeException status)
  | RaisedOther => inl OtherException
  end.

(** A filter argument that is given: neither [None] nor empty. *)
Definition given (v : option string) (s : string) : Prop :=
  v = Some s ∧ s ≠ "".

(** A reference to a set whose document has neither publication status
    nor year. *)
Definition bare_reference : StandardSetReference :=
  {| ref_id := "SET"; ref_title := "Grade 1"; ref_subject := "Mathematics";
     ref_educationLevels := ["01"];
     ref_document :=
       {| doc_id := None; doc_title := "Document"; doc_valid := None;
          doc_sourceURL := None; doc_asnIdentifier := None;
          doc_publicationStatus := None |} |}.

(** The three-node chain in a set whose document has no id. *)
Definition chain_without_document_id : StandardSet :=
  {| set_id := "SET_ID"; set_title := "Grade 1"; set_subject := "Mathematics";
     set_normalizedSubject := None; set_educationLevels := ["01"];
     set_document :=
       {| doc_id := None; doc_title := "Test Document";
          doc_valid := Some "2021"; doc_sourceURL := None;
          doc_asnIdentifier := None; doc_publicationStatus := None |};
     set_jurisdiction := {| jur_id := "JUR_ID"; jur_title := "Test State" |};
     set_standards := Scenario.chain |}.

(** * Properties *)

(** ** Loops *)

Section WhileLoopFacts.
Context {St R : Type}.
Variable step : St → St + R.

Lemma while_loop_exit (fuel : nat) (s : St) (r : R) :
  step s = inr r → while_loop step (S fuel) s = Some (r, O).
Proof. intros Hstep. simpl. by rewrite Hstep. Qed.

Lemma while_loop_continue (fuel : nat) (s s' : St) :
  step s = inl s' →
  while_loop step (S fuel) s
  = match while_loop step fuel s' with
    | Some (r, n) => Some (r, S n)
    | None => None
    end.
Proof. intros Hstep. simpl. by rewrite Hstep. Qed.

(** How a run that ends began. *)
Lemma while_loop_Some_inv (fuel : nat) (s : St) (r : R) (n : nat) :
  while_loop step fuel s = Some (r, n) →
  ∃ fuel', fuel = S fuel'
    ∧ ((step s = inr r ∧ n = O)
       ∨ ∃ s' n', step s = inl s'
                  ∧ while_loop step fuel' s' = Some (r, n') ∧ n = S n').
Proof.
  destruct fuel as [|fuel']; [done|]. simpl. intros Hrun.
  exists fuel'. split; [done|].
  destruct (step s) as [s'|r'].
  - right. destruct (while_loop step fuel' s') as [[r'' n'']|] eqn:Hrec; [|done].
    injection Hrun as -> <-. by exists s', n''.
  - left. by injection Hrun as -> <-.
Qed.

(** More iterations allowed, same outcome. *)
Lemma while_loop_mono (fuel fuel' : nat) (s : St) (out : R * nat) :
  while_loop step fuel s = Some out →
  (fuel ≤ fuel')%nat →
  while_loop step fuel' s = Some out.
Proof.
  revert fuel' s out.
  induction fuel as [|fuel IH]; intros fuel' s out Hrun Hle; [done|].
  destruct fuel' as [|fuel']; [lia|].
  simpl in *. destruct (step s) as [s'|r]; [|done].
  destruct (while_loop step fuel s') as [[r n]|] eqn:Hrec; [|done].
  by rewrite (IH fuel' s' (r, n)) by (done || lia).
Qed.

(** Two runs that both end agree. *)
Lemma while_loop_agree (fuel fuel' : nat) (s : St) (out out' : R * nat) :
  while_loop step fuel s = Some out →
  while_loop step fuel' s = Some out' →
  out = out'.
Proof.
  intros H1 H2.
  apply (while_loop_mono _ (fuel `max` fuel')) in H1; [|lia].
  apply (while_loop_mono _ (fuel `max` fuel')) in H2; [|lia].
  congruence.
Qed.

(** A measure that every iteration lowers bounds the iterations. *)
Lemma while_loop_measure (μ : St → nat) :
  (∀ s s', step s = inl s' → (μ s' < μ s)%nat) →
  ∀ fuel s, (μ s < fuel)%nat →
    ∃ r n, while_loop step fuel s = Some (r, n) ∧ (n ≤ μ s)%nat.
Proof.
  intros Hdec fuel. induction fuel as [|fuel IH]; intros s Hlt; [lia|].
  simpl. destruct (step s) as [s'|r] eqn:Hstep.
  - specialize (Hdec _ _ Hstep).
    destruct (IH s') as (r & n & -> & Hn); [lia|].
    exists r, (S n). split; [done|lia].
  - exists r, O. split; [done|lia].
Qed.

(** An invariant of the states holds where the loop is left. *)
Lemma while_loop_invariant (I : St → Prop) (Q : R → Prop) :
  (∀ s s', I s → step s = inl s' → I s') →
  (∀ s r, I s → step s = inr r → Q r) →
  ∀ fuel s r n, I s → while_loop step fuel s = Some (r, n) → Q r.
Proof.
  intros Hstep Hexit fuel.
  induction fuel as [|fuel IH]; intros s r n Hs Hrun; [done|].
  simpl in Hrun. destruct (step s) as [s'|r'] eqn:Hs'.
  - destruct (while_loop step fuel s') as [[r'' n'']|] eqn:Hrec; [|done].
    simplify_eq. eauto.
  - simplify_eq. eauto.
Qed.
End WhileLoopFacts.

(** ** Termination of the two walks *)

Section Walks.
Context (id_to_standard : gmap string Standard).
Implicit Types (standard node : Standard) (visited : gset string).

Lemma unvisited_visit visited (parent_id : string) :
  parent_id ∉ visited →
  is_Some (id_to_standard !! parent_id) →
  (size (unvisited id_to_standard ({[parent_id]} ∪ visited))
   < size (unvisited id_to_standard visited))%nat.
Proof.
  intros Hfresh Hin%elem_of_dom. apply subset_size. unfold unvisited.
  split.
  - intros x. rewrite !elem_of_difference, elem_of_union. tauto.
  - intros Hsub. specialize (Hsub parent_id).
    rewrite !elem_of_difference, elem_of_union, elem_of_singleton in Hsub.
    tauto.
Qed.

Lemma unvisited_empty : size (unvisited id_to_standard ∅) = size id_to_standard.
Proof.
  unfold unvisited. by rewrite difference_empty_L, size_dom.
Qed.

Lemma find_root_step_measure st st' :
  find_root_step id_to_standard st = inl st' →
  (size (unvisited id_to_standard st'.2)
   < size (unvisited id_to_standard st.2))%nat.
Proof.
  destruct st as [current visited]. unfold find_root_step.
  destruct (std_parentId current) as [parent_id|]; [|done].
  case_bool_decide; [done|].
  destruct (id_to_standard !! parent_id) as [parent|] eqn:Hparent; [|done].
  intros [= <-]. simpl. by apply unvisited_visit.
Qed.

Lemma ancestors_step_measure st st' :
  ancestors_step id_to_standard st = inl st' →
  (size (unvisited id_to_standard (visited st'))
   < size (unvisited id_to_standard (visited st)))%nat.
Proof.
  unfold ancestors_step.
  destruct (current_id st) as [cur|]; [|done].
  case_bool_decide; [done|].
  destruct (id_to_standard !! cur) as [node|] eqn:Hnode; [|done].
  intros [= <-]. simpl. by apply unvisited_visit.
Qed.

(** Each time round, the loop of [build_ordered_ancestors] appends one id. *)
Lemma ancestors_loop_length fuel st anc n :
  while_loop (ancestors_step id_to_standard) fuel st = Some (anc, n) →
  length anc = (length (ancestors st) + n)%nat.
Proof.
  revert st anc n. induction fuel as [|fuel IH]; intros st anc n Hrun; [done|].
  simpl in Hrun.
  destruct (ancestors_step id_to_standard st) as [st'|r] eqn:Hstep.
  - destruct (while_loop _ fuel st') as [[r' n']|] eqn:Hrec; [|done].
    simplify_eq. apply IH in Hrec. rewrite Hrec.
    unfold ancestors_step in Hstep.
    destruct (current_id st) as [cur|]; [|done].
    case_bool_decide; [done|].
    destruct (id_to_standard !! cur); [|done].
    simplify_eq. simpl. rewrite length_app. simpl. lia.
  - simplify_eq. unfold ancestors_step in Hstep.
    destruct (current_id st) as [cur|]; [|by simplify_eq; lia].
    case_bool_decide; [by simplify_eq; lia|].
    destruct (id_to_standard !! cur); [done|]. simplify_eq. lia.
Qed.

Lemma find_root_loop_terminates standard (extra : nat) :
  ∃ root steps,
    find_root_loop (S (size id_to_standard) + extra) standard id_to_standard
      = Some (root, steps)
    ∧ (steps ≤ size id_to_standard)%nat.
Proof.
  unfold find_root_loop.
  destruct (while_loop_measure (find_root_step id_to_standard)
              (λ st, size (unvisited id_to_standard st.2)) find_root_step_measure
              (S (size id_to_standard) + extra)%nat (standard, ∅))
    as (root & steps & Hrun & Hsteps).
  { simpl. rewrite unvisited_empty. lia. }
  exists root, steps. split; [done|].
  simpl in Hsteps. by rewrite unvisited_empty in Hsteps.
Qed.

Lemma ancestors_loop_terminates standard (extra : nat) :
  ∃ anc steps,
    ancestors_loop (S (size id_to_standard) + extra) standard id_to_standard
      = Some (anc, steps)
    ∧ (steps ≤ size id_to_standard)%nat
    ∧ length anc = steps.
Proof.
  unfold ancestors_loop.
  destruct (while_loop_measure (ancestors_step id_to_standard)
              (λ st, size (unvisited id_to_standard (visited st)))
              ancestors_step_measure
              (S (size id_to_standard) + extra)%nat
              {| current_id := std_parentId standard; visited := ∅; ancestors := [] |})
    as (anc & steps & Hrun & Hsteps).
  { simpl. rewrite unvisited_empty. lia. }
  exists anc, steps. split; [done|].
  simpl in Hsteps. rewrite unvisited_empty in Hsteps. split; [done|].
  by apply ancestors_loop_length in Hrun.
Qed.

(** The functions return what their loops leave. *)
Lemma find_root_id_loop standard fuel root steps :
  find_root_loop fuel standard id_to_standard = Some (root, steps) →
  find_root_id standard id_to_standard = root.
Proof.
  intros Hrun. unfold find_root_id.
  destruct (find_root_loop_terminates standard 0) as (root' & steps' & Hrun' & _).
  rewrite Nat.add_0_r in Hrun'. rewrite Hrun'.
  unfold find_root_loop in *.
  by pose proof (while_loop_agree _ _ _ _ _ _ Hrun Hrun') as [= -> _].
Qed.

Lemma build_ordered_ancestors_loop standard fuel anc steps :
  ancestors_loop fuel standard id_to_standard = Some (anc, steps) →
  build_ordered_ancestors standard id_to_standard = reverse anc.
Proof.
  intros Hrun. unfold build_ordered_ancestors.
  destruct (ancestors_loop_terminates standard 0) as (anc' & steps' & Hrun' & _).
  rewrite Nat.add_0_r in Hrun'. rewrite Hrun'.
  unfold ancestors_loop in *.
  by pose proof (while_loop_agree _ _ _ _ _ _ Hrun Hrun') as [= -> _].
Qed.
End Walks.

(** C3. Whatever the map holds, cycles and dangling parent ids included,
    both walks end: the loop of [find_root_id] and the loop of
    [build_ordered_ancestors] leave within [size + 1] iterations, having
    followed a parent at most [size] times, where [size] is the number of
    nodes of the map; allowing more iterations changes nothing, and the
    functions return what the loops leave.  The measure that goes down is
    the set of ids not yet in [visited]; no [depth] field is read. *)
Theorem walks_terminate_within_tree_size
    (id_to_standard : gmap string Standard) (standard : Standard) (extra : nat) :
  (∃ root steps,
     find_root_loop (S (size id_to_standard) + extra) standard id_to_standard
       = Some (root, steps)
     ∧ (steps ≤ size id_to_standard)%nat
     ∧ find_root_id standard id_to_standard = root)
  ∧ (∃ anc steps,
       ancestors_loop (S (size id_to_standard) + extra) standard id_to_standard
         = Some (anc, steps)
       ∧ (steps ≤ size id_to_standard)%nat
       ∧ length anc = steps
       ∧ build_ordered_ancestors standard id_to_standard = reverse anc).
Proof.
  split.
  - destruct (find_root_loop_terminates id_to_standard standard extra)
      as (root & steps & Hrun & Hsteps).
    exists root, steps. split_and!; [done..|].
    by eapply find_root_id_loop.
  - destruct (ancestors_loop_terminates id_to_standard standard extra)
      as (anc & steps & Hrun & Hsteps & Hlen).
    exists anc, steps. split_and!; [done..|].
    by eapply build_ordered_ancestors_loop.
Qed.

(** ** The ancestor chain and the root *)

Section Chain.
Context (id_to_standard : gmap string Standard).
Implicit Types (standard current node : Standard).

Lemma ancestors_step_inl st st' :
  ancestors_step id_to_standard st = inl st' →
  ∃ cur node,
    current_id st = Some cur ∧ (cur ∉ visited st)
    ∧ id_to_standard !! cur = Some node
    ∧ st' = {| current_id := std_parentId node;
               visited := {[cur]} ∪ visited st;
               ancestors := ancestors st ++ [cur] |}.
Proof.
  unfold ancestors_step.
  destruct (current_id st) as [cur|]; [|done].
  case_bool_decide; [done|].
  destruct (id_to_standard !! cur) as [node|] eqn:Hnode; [|done].
  intros [= <-]. by exists cur, node.
Qed.

Lemma ancestors_step_inr st r :
  ancestors_step id_to_standard st = inr r → r = ancestors st.
Proof.
  unfold ancestors_step.
  destruct (current_id st) as [cur|]; [|by intros [= <-]].
  case_bool_decide; [by intros [= <-]|].
  by destruct (id_to_standard !! cur); [|intros [= <-]].
Qed.

(** The loop only ever appends to [ancestors]. *)
Lemma ancestors_loop_extends fuel st anc n :
  while_loop (ancestors_step id_to_standard) fuel st = Some (anc, n) →
  ∃ chain, anc = ancestors st ++ chain.
Proof.
  revert st anc n. induction fuel as [|fuel IH]; intros st anc n Hrun; [done|].
  apply while_loop_Some_inv in Hrun
    as (fuel' & [= <-] & [[Hexit _]|(st' & n' & Hstep & Hrec & _)]).
  - apply ancestors_step_inr in Hexit as ->.
    exists []. by rewrite app_nil_r.
  - apply ancestors_step_inl in Hstep as (cur & node & _ & _ & _ & ->).
    apply IH in Hrec as [chain ->]. simpl.
    exists (cur :: chain). by rewrite <-app_assoc.
Qed.

(** Every id the loop appends is a key of the map. *)
Lemma ancestors_loop_in_map fuel st anc n :
  Forall (λ a, is_Some (id_to_standard !! a)) (ancestors st) →
  while_loop (ancestors_step id_to_standard) fuel st = Some (anc, n) →
  Forall (λ a, is_Some (id_to_standard !! a)) anc.
Proof.
  intros Hinit Hrun.
  eapply (while_loop_invariant (ancestors_step id_to_standard)
            (λ st, Forall (λ a, is_Some (id_to_standard !! a)) (ancestors st)));
    [| |exact Hinit|exact Hrun].
  - intros s s' Hs (cur & node & _ & _ & Hnode & ->)%ancestors_step_inl.
    simpl. apply Forall_app. split; [done|].
    apply Forall_singleton. by rewrite Hnode.
  - by intros s r Hs ->%ancestors_step_inr.
Qed.

Lemma build_ordered_ancestors_in_map standard :
  Forall (λ a, is_Some (id_to_standard !! a))
         (build_ordered_ancestors standard id_to_standard).
Proof.
  destruct (ancestors_loop_terminates id_to_standard standard 0)
    as (anc & steps & Hrun & _).
  rewrite (build_ordered_ancestors_loop _ _ _ _ _ Hrun).
  apply Forall_reverse.
  eapply ancestors_loop_in_map; [|exact Hrun]. constructor.
Qed.

Lemma find_root_step_inl current visited st' :
  find_root_step id_to_standard (current, visited) = inl st' →
  ∃ parent_id parent,
    std_parentId current = Some parent_id ∧ (parent_id ∉ visited)
    ∧ id_to_standard !! parent_id = Some parent
    ∧ st' = (parent, {[parent_id]} ∪ visited).
Proof.
  unfold find_root_step.
  destruct (std_parentId current) as [parent_id|]; [|done].
  case_bool_decide; [done|].
  destruct (id_to_standard !! parent_id) as [parent|] eqn:Hparent; [|done].
  intros [= <-]. by exists parent_id, parent.
Qed.

Lemma find_root_step_inr current visited root :
  find_root_step id_to_standard (current, visited) = inr root →
  root = std_id current
  ∧ match std_parentId current with
    | None => True
    | Some parent_id =>
        parent_id ∈ visited ∨ id_to_standard !! parent_id = None
    end.
Proof.
  unfold find_root_step.
  destruct (std_parentId current) as [parent_id|]; [|by intros [= <-]].
  case_bool_decide; [intros [= <-]; by split; [|left]|].
  destruct (id_to_standard !! parent_id); [done|].
  intros [= <-]. by split; [|right].
Qed.

Lemma ancestors_step_exit st :
  match current_id st with
  | None => True
  | Some cur => cur ∈ visited st ∨ id_to_standard !! cur = None
  end →
  ancestors_step id_to_standard st = inr (ancestors st).
Proof.
  unfold ancestors_step. destruct (current_id st) as [cur|]; [|done].
  case_bool_decide; [done|]. intros [?| ->]; done.
Qed.

Lemma ancestors_step_continue st cur node :
  current_id st = Some cur →
  cur ∉ visited st →
  id_to_standard !! cur = Some node →
  ancestors_step id_to_standard st
  = inl {| current_id := std_parentId node;
           visited := {[cur]} ∪ visited st;
           ancestors := ancestors st ++ [cur] |}.
Proof.
  intros Hcur Hfresh Hnode. unfold ancestors_step.
  by rewrite Hcur, bool_decide_eq_false_2, Hnode.
Qed.

(** The two loops go up side by side: [find_root_id] stands on the node
    whose parent id [build_ordered_ancestors] is about to look at, and
    where the first stops the second stops. *)
Lemma walks_side_by_side fuel current st root n :
  keys_are_ids id_to_standard →
  current_id st = std_parentId current →
  while_loop (find_root_step id_to_standard) fuel (current, visited st)
    = Some (root, n) →
  ∃ chain,
    while_loop (ancestors_step id_to_standard) fuel st
      = Some (ancestors st ++ chain, n)
    ∧ root = default (std_id current) (last chain).
Proof.
  intros Hkeys. revert current st root n.
  induction fuel as [|fuel IH]; intros current st root n Hcur Hrun; [done|].
  apply while_loop_Some_inv in Hrun
    as (fuel' & [= <-] & [[Hexit Hn]|(st' & n' & Hstep & Hrec & Hn)]);
    subst n.
  - apply find_root_step_inr in Hexit as [-> Hstop].
    exists []. rewrite app_nil_r. split; [|done].
    apply while_loop_exit, ancestors_step_exit. by rewrite Hcur.
  - apply find_root_step_inl in Hstep
      as (parent_id & parent & Hparent & Hfresh & Hlookup & ->).
    rewrite Hparent in Hcur.
    rewrite (while_loop_continue _ _ _ _
               (ancestors_step_continue _ _ _ Hcur Hfresh Hlookup)).
    destruct (IH parent
                {| current_id := std_parentId parent;
                   visited := {[parent_id]} ∪ visited st;
                   ancestors := ancestors st ++ [parent_id] |} root n'
                eq_refl Hrec) as (chain & -> & ->).
    exists (parent_id :: chain). simpl. rewrite <-app_assoc.
    split; [done|]. rewrite last_cons, (Hkeys _ _ Hlookup).
    by destruct (last chain).
Qed.

Lemma find_root_id_last_ancestor standard :
  keys_are_ids id_to_standard →
  find_root_id standard id_to_standard
  = default (std_id standard)
            (head (build_ordered_ancestors standard id_to_standard)).
Proof.
  intros Hkeys.
  destruct (find_root_loop_terminates id_to_standard standard 0)
    as (root & n & Hroot & _).
  destruct (ancestors_loop_terminates id_to_standard standard 0)
    as (anc & n' & Hanc & _).
  rewrite (find_root_id_loop _ _ _ _ _ Hroot).
  rewrite (build_ordered_ancestors_loop _ _ _ _ _ Hanc), head_reverse.
  unfold find_root_loop in Hroot. unfold ancestors_loop in Hanc.
  destruct (walks_side_by_side _ standard
              {| current_id := std_parentId standard; visited := ∅;
                 ancestors := [] |} root n Hkeys eq_refl Hroot)
    as (chain & Hanc' & ->).
  rewrite Hanc' in Hanc. by injection Hanc as <- _.
Qed.

(** A root, or a node whose parent id is not in the map, has no
    ancestors. *)
Lemma build_ordered_ancestors_none standard :
  std_parentId standard = None
  ∨ (∃ parent_id, std_parentId standard = Some parent_id
                  ∧ id_to_standard !! parent_id = None) →
  build_ordered_ancestors standard id_to_standard = [].
Proof.
  intros Hparent. unfold build_ordered_ancestors, ancestors_loop.
  simpl. unfold ancestors_step. simpl.
  destruct Hparent as [->|(parent_id & -> & Hmissing)]; [done|].
  rewrite bool_decide_eq_false_2 by set_solver.
  by rewrite Hmissing.
Qed.

(** Otherwise the parent is the last of the ancestors. *)
Lemma build_ordered_ancestors_parent standard parent_id :
  std_parentId standard = Some parent_id →
  is_Some (id_to_standard !! parent_id) →
  last (build_ordered_ancestors standard id_to_standard) = Some parent_id.
Proof.
  intros Hparent [parent Hlookup].
  destruct (ancestors_loop_terminates id_to_standard standard 0)
    as (anc & steps & Hrun & _).
  rewrite (build_ordered_ancestors_loop _ _ _ _ _ Hrun), last_reverse.
  unfold ancestors_loop in Hrun.
  apply while_loop_Some_inv in Hrun
    as (fuel' & _ & [[Hexit _]|(st' & n' & Hstep & Hrec & _)]).
  - unfold ancestors_step in Hexit. simpl in Hexit.
    rewrite Hparent, bool_decide_eq_false_2, Hlookup in Hexit by set_solver.
    done.
  - apply ancestors_step_inl in Hstep as (cur & node & Hcur & _ & _ & ->).
    simpl in Hcur. rewrite Hparent in Hcur. injection Hcur as <-.
    by apply ancestors_loop_extends in Hrec as [chain ->].
Qed.
End Chain.

(** C4. In a map whose nodes are stored under their ids, the recomputed
    ancestor list of a node is empty exactly when the node has no parent id
    or its parent id names no node of the map; and for a node whose parent
    is in the map, the last ancestor is that parent and the first is what
    [find_root_id] returns. *)
Theorem ancestors_run_from_root_to_parent
    (id_to_standard : gmap string Standard) (standard : Standard) :
  keys_are_ids id_to_standard →
  (build_ordered_ancestors standard id_to_standard = []
   ↔ std_parentId standard = None
     ∨ ∃ parent_id, std_parentId standard = Some parent_id
                    ∧ id_to_standard !! parent_id = None)
  ∧ (∀ parent_id,
       std_parentId standard = Some parent_id →
       is_Some (id_to_standard !! parent_id) →
       last (build_ordered_ancestors standard id_to_standard) = Some parent_id
       ∧ head (build_ordered_ancestors standard id_to_standard)
         = Some (find_root_id standard id_to_standard)).
Proof.
  intros Hkeys. split.
  - split; [|apply build_ordered_ancestors_none].
    intros Hnil.
    destruct (std_parentId standard) as [parent_id|] eqn:Hparent; [|by left].
    right. exists parent_id. split; [done|].
    destruct (id_to_standard !! parent_id) as [parent|] eqn:Hlookup; [|done].
    pose proof (build_ordered_ancestors_parent id_to_standard standard parent_id
                  Hparent (mk_is_Some _ _ Hlookup)) as Hlast.
    by rewrite Hnil in Hlast.
  - intros parent_id Hparent Hlookup.
    pose proof (build_ordered_ancestors_parent id_to_standard standard parent_id
                  Hparent Hlookup) as Hlast.
    split; [done|].
    rewrite (find_root_id_last_ancestor id_to_standard standard Hkeys).
    destruct (build_ordered_ancestors standard id_to_standard); [done|].
    done.
Qed.

Lemma chain_keys_are_ids :
  keys_are_ids (_build_id_to_standard_map Scenario.chain).
Proof. by apply (bool_decide_unpack _). Defined.

Lemma ancestors_run_from_root_to_parent_C2 :
  keys_are_ids (_build_id_to_standard_map Scenario.chain)
  ∧ last (build_ordered_ancestors Scenario.C2
            (_build_id_to_standard_map Scenario.chain)) = Some "C1"
  ∧ head (build_ordered_ancestors Scenario.C2
            (_build_id_to_standard_map Scenario.chain))
    = Some (find_root_id Scenario.C2 (_build_id_to_standard_map Scenario.chain)).
Proof.
  split; [exact chain_keys_are_ids|].
  apply (ancestors_run_from_root_to_parent
           (_build_id_to_standard_map Scenario.chain) Scenario.C2
           chain_keys_are_ids).
  - reflexivity.
  - by eexists.
Defined.

(** C4 as the specification has it fails on a dangling parent id: the
    node is not a root and its ancestor list is empty. *)
Lemma orphan_has_no_ancestors :
  ¬ (build_ordered_ancestors Scenario.orphan
       (_build_id_to_standard_map Scenario.orphan_tree) = []
     ↔ std_parentId Scenario.orphan = None).
Proof. intros [Hnil _]. by specialize (Hnil eq_refl). Qed.

(** C10. When two nodes stored under distinct ids [a] and [b] name each
    other as parent, the ancestors computed for the first are [a; b]: the
    list holds the id of the node itself. *)
Theorem cycle_ancestors_hold_self
    (id_to_standard : gmap string Standard) (a b : string) (node_a node_b : Standard) :
  a ≠ b →
  id_to_standard !! a = Some node_a →
  id_to_standard !! b = Some node_b →
  std_parentId node_a = Some b →
  std_parentId node_b = Some a →
  build_ordered_ancestors node_a id_to_standard = [a; b]
  ∧ a ∈ build_ordered_ancestors node_a id_to_standard.
Proof.
  intros Hab Ha Hb Hpa Hpb.
  assert (ancestors_loop 3 node_a id_to_standard = Some ([b; a], 2%nat)) as Hrun.
  { unfold ancestors_loop.
    erewrite while_loop_continue;
      [|by apply (ancestors_step_continue _ _ b node_b)].
    erewrite while_loop_continue; cycle 1.
    { apply (ancestors_step_continue _ _ a node_a); simpl; [done| |done].
      rewrite elem_of_union, elem_of_singleton, elem_of_empty.
      by intros [?|[]]. }
    erewrite while_loop_exit; [done|].
    apply ancestors_step_exit. simpl. rewrite Hpa. left.
    rewrite !elem_of_union, !elem_of_singleton. tauto. }
  rewrite (build_ordered_ancestors_loop _ _ _ _ _ Hrun).
  split; [done|]. apply list_elem_of_here.
Qed.

Lemma cycle_ancestors_hold_self_AB :
  build_ordered_ancestors Scenario.A (_build_id_to_standard_map Scenario.cycle)
  = ["A"; "B"]
  ∧ "A" ∈ build_ordered_ancestors Scenario.A
            (_build_id_to_standard_map Scenario.cycle).
Proof.
  apply (cycle_ancestors_hold_self
           (_build_id_to_standard_map Scenario.cycle) "A" "B"
           Scenario.A Scenario.B); [done|reflexivity..].
Defined.

(** ** The stable sort *)

Lemma insert_by_position_Permutation x l : insert_by_position x l ≡ₚ x :: l.
Proof.
  induction l as [|y l IH]; simpl; [done|].
  case_match; [done|]. rewrite IH. apply Permutation_swap.
Qed.

Lemma sorted_Permutation l : sorted l ≡ₚ l.
Proof.
  induction l as [|x l IH]; simpl; [done|].
  by rewrite insert_by_position_Permutation, IH.
Qed.

Lemma insert_by_position_ascending x l :
  ascending l → ascending (insert_by_position x l).
Proof.
  unfold ascending. induction 1 as [|y l Hsorted IH Hy]; simpl.
  - repeat constructor.
  - case_match eqn:Hle.
    + apply Z.leb_le in Hle.
      apply SSorted_cons; [apply SSorted_cons; [exact Hsorted|exact Hy]|].
      apply Forall_cons. split; [exact Hle|].
      eapply Forall_impl; [exact Hy|]. simpl. intros; lia.
    + apply Z.leb_gt in Hle. apply SSorted_cons; [exact IH|].
      rewrite insert_by_position_Permutation.
      apply Forall_cons. split; [lia|exact Hy].
Qed.

Lemma sorted_ascending l : ascending (sorted l).
Proof.
  induction l as [|x l IH]; simpl; [constructor|].
  by apply insert_by_position_ascending.
Qed.

(** Inserting goes past smaller positions only, so it keeps the order of
    the members at any one position. *)
Lemma insert_by_position_at_position position x l :
  at_position position (insert_by_position x l)
  = at_position position (x :: l).
Proof.
  unfold at_position. induction l as [|y l IH]; simpl; [done|].
  case_match eqn:Hle; [done|]. apply Z.leb_gt in Hle.
  rewrite (filter_cons _ y), IH, !filter_cons.
  repeat case_decide; (done || lia).
Qed.

Lemma sorted_at_position position l :
  at_position position (sorted l) = at_position position l.
Proof.
  induction l as [|x l IH]; simpl; [done|].
  rewrite insert_by_position_at_position. unfold at_position in *.
  by rewrite !filter_cons, IH.
Qed.

(** ** The relationship maps *)

(** A dict holds one value under a key. *)
Lemma unique_under_key {A} (items : list (string * A)) (key : string) (x y : A) :
  NoDup items.*1 → (key, x) ∈ items → (key, y) ∈ items → x = y.
Proof.
  intros Hkeys Hx Hy.
  apply (elem_of_list_to_map_1 (M := gmap string)) in Hx; [|done].
  apply (elem_of_list_to_map_1 (M := gmap string)) in Hy; [|done].
  congruence.
Qed.

Section Maps.
Context (standards : list (string * Standard)).

(** The id map holds the items of the dict it is built from. *)
Lemma build_id_to_standard_map_items l :
  _build_id_to_standard_map l = list_to_map (reverse l).
Proof.
  unfold _build_id_to_standard_map.
  induction l as [|[std_id std] l IH] using rev_ind; [done|].
  by rewrite foldl_app, reverse_snoc, IH.
Qed.

Lemma build_id_to_standard_map_lookup std_id std :
  NoDup standards.*1 →
  _build_id_to_standard_map standards !! std_id = Some std
  ↔ (std_id, std) ∈ standards.
Proof.
  intros Hkeys. rewrite build_id_to_standard_map_items.
  rewrite <-elem_of_list_to_map, elem_of_reverse; [done|].
  by rewrite fmap_reverse, reverse_Permutation.
Qed.

(** The size of the map is the number of nodes of the tree. *)
Lemma build_id_to_standard_map_size :
  NoDup standards.*1 →
  size (_build_id_to_standard_map standards) = length standards.
Proof.
  intros Hkeys. rewrite build_id_to_standard_map_items.
  rewrite map_size_list_to_map, length_reverse; [done|].
  by rewrite fmap_reverse, reverse_Permutation.
Qed.

Lemma children_of_snoc parent_id l std_id std :
  children_of parent_id (l ++ [(std_id, std)])
  = children_of parent_id l
    ++ (if decide (std_parentId std = parent_id)
        then [(std_position std, std_id)] else []).
Proof.
  unfold children_of. rewrite filter_app, fmap_app. f_equal.
  rewrite filter_cons. repeat case_decide; done.
Qed.

(** The grouping pass files every node under its parent id, in order. *)
Lemma group_by_parent_lookup l parent_id :
  group_by_parent l !! parent_id
  = match children_of parent_id l with
    | [] => None
    | children => Some children
    end.
Proof.
  induction l as [|[std_id std] l IH] using rev_ind; [done|].
  unfold group_by_parent in *. rewrite foldl_app. simpl.
  rewrite children_of_snoc.
  destruct (decide (std_parentId std = parent_id)) as [->|Hne].
  - rewrite lookup_insert_eq, IH.
    by destruct (children_of _ l).
  - rewrite lookup_insert_ne, IH, app_nil_r; done.
Qed.

Lemma parent_to_children_lookup parent_id :
  default [] (_build_parent_to_children_map standards !! parent_id)
  = (sorted (children_of parent_id standards)).*2.
Proof.
  unfold _build_parent_to_children_map.
  rewrite lookup_fmap, group_by_parent_lookup.
  by destruct (children_of parent_id standards).
Qed.

Lemma elem_of_children_of parent_id position std_id :
  (position, std_id) ∈ children_of parent_id standards
  ↔ ∃ std, (std_id, std) ∈ standards
           ∧ std_parentId std = parent_id ∧ std_position std = position.
Proof.
  unfold children_of. rewrite list_elem_of_fmap. split.
  - intros ([k std] & [= -> ->] & [Hparent Hin]%list_elem_of_filter).
    by exists std.
  - intros (std & Hin & Hparent & <-). exists (std_id, std).
    split; [done|]. by apply list_elem_of_filter.
Qed.

Lemma elem_of_child_ids parent_id std_id :
  std_id ∈ default [] (_build_parent_to_children_map standards !! parent_id)
  ↔ ∃ std, (std_id, std) ∈ standards ∧ std_parentId std = parent_id.
Proof.
  rewrite parent_to_children_lookup, list_elem_of_fmap. split.
  - intros ([position k] & -> & Hin). simpl.
    rewrite sorted_Permutation in Hin.
    apply elem_of_children_of in Hin as (std & ? & ? & _). by exists std.
  - intros (std & Hin & Hparent). exists (std_position std, std_id).
    split; [done|]. rewrite sorted_Permutation.
    apply elem_of_children_of. by exists std.
Qed.

Lemma elem_of_parent_ids_of parent_id :
  parent_id ∈ parent_ids_of standards
  ↔ ∃ std_id std, (std_id, std) ∈ standards ∧ std_parentId std = Some parent_id.
Proof.
  unfold parent_ids_of. rewrite elem_of_list_to_set, list_elem_of_omap. split.
  - intros ([std_id std] & Hin & Hparent). by exists std_id, std.
  - intros (std_id & std & Hin & Hparent). by exists (std_id, std).
Qed.

Lemma elem_of_leaf_nodes std_id :
  std_id ∈ _identify_leaf_nodes standards
  ↔ std_id ∈ standards.*1
    ∧ ∀ k std, (k, std) ∈ standards → std_parentId std ≠ Some std_id.
Proof.
  unfold _identify_leaf_nodes.
  rewrite elem_of_difference, elem_of_list_to_set, elem_of_parent_ids_of.
  split; intros [Hin Hparent]; (split; [done|]).
  - intros k std Hk Hp. apply Hparent. by exists k, std.
  - intros (k & std & Hk & Hp). by apply (Hparent k std).
Qed.
End Maps.

(** ** Records *)

(** What a record that [_transform_standard] returns is made of. *)
Lemma transform_standard_inr self standard standard_set r :
  _transform_standard self standard standard_set = inr r →
  ∃ content document_id document_valid,
    _build_content_text self standard = inr content
    ∧ doc_id (set_document standard_set) = Some document_id
    ∧ doc_valid (set_document standard_set) = Some document_valid
    ∧ r = {| rec_id := std_id standard;
             rec_content := content;
             rec_standard_set_id := set_id standard_set;
             rec_standard_set_title := set_title standard_set;
             rec_subject := set_subject standard_set;
             rec_normalized_subject := set_normalizedSubject standard_set;
             rec_education_levels :=
               process_education_levels
                 (PyList (PyStrItem <$> set_educationLevels standard_set));
             rec_document_id := document_id;
             rec_document_valid := document_valid;
             rec_publication_status :=
               doc_publicationStatus (set_document standard_set);
             rec_jurisdiction_id := jur_id (set_jurisdiction standard_set);
             rec_jurisdiction_title := jur_title (set_jurisdiction standard_set);
             rec_asn_identifier := if_truthy (std_asnIdentifier standard);
             rec_statement_notation := if_truthy (std_statementNotation standard);
             rec_statement_label := if_truthy (std_statementLabel standard);
             rec_depth := std_depth standard;
             rec_is_leaf := bool_decide (std_id standard ∈ leaf_nodes self);
             rec_is_root := bool_decide (std_parentId standard = None);
             rec_parent_id := std_parentId standard;
             rec_root_id :=
               if bool_decide (std_parentId standard = None)
               then std_id standard
               else find_root_id standard (id_to_standard self);
             rec_ancestor_ids :=
               build_ordered_ancestors standard (id_to_standard self);
             rec_child_ids :=
               default [] (parent_to_children self !! Some (std_id standard));
             rec_sibling_count := _compute_sibling_count self standard |}.
Proof.
  unfold _transform_standard, bind.
  destruct (_build_content_text self standard) as [e|content]; [done|].
  destruct (doc_id (set_document standard_set)) as [document_id|];
    destruct (doc_valid (set_document standard_set)) as [document_valid|];
    try done.
  intros [= <-]. by exists content, document_id, document_valid.
Qed.

(** C5. The child ids of a record are the keys of the nodes whose parent id
    is the id of the node, each once, in ascending order of position, and
    nodes at the same position stay in the order the input map iterates
    them; the roots are grouped the same way under the null key.  The node
    is not among its own children unless it names itself as its parent. *)
Theorem child_ids_ascending_and_stable
    (standards : list (string * Standard)) (standard : Standard)
    (standard_set : StandardSet) (r : PineconeRecord) :
  _transform_standard (_build_relationship_maps standards) standard standard_set
    = inr r →
  (∃ children,
     rec_child_ids r = children.*2
     ∧ children ≡ₚ children_of (Some (std_id standard)) standards
     ∧ ascending children
     ∧ ∀ position,
         at_position position children
         = at_position position (children_of (Some (std_id standard)) standards))
  ∧ (NoDup standards.*1 →
     (std_id standard, standard) ∈ standards →
     std_parentId standard ≠ Some (std_id standard) →
     std_id standard ∉ rec_child_ids r)
  ∧ (∃ roots,
       default [] (parent_to_children (_build_relationship_maps standards) !! None)
         = roots.*2
       ∧ roots ≡ₚ children_of None standards
       ∧ ascending roots
       ∧ ∀ position,
           at_position position roots
           = at_position position (children_of None standards)).
Proof.
  intros (content & document_id & document_valid & _ & _ & _ & ->)
           %transform_standard_inr.
  simpl. split_and!.
  - exists (sorted (children_of (Some (std_id standard)) standards)).
    split_and!.
    + apply parent_to_children_lookup.
    + apply sorted_Permutation.
    + apply sorted_ascending.
    + intros position. apply sorted_at_position.
  - intros Hkeys Hin Hself Hchild.
    apply elem_of_child_ids in Hchild as (std & Hin' & Hparent).
    assert (std = standard) as ->; [|done].
    by eapply (unique_under_key standards).
  - exists (sorted (children_of None standards)). split_and!.
    + apply parent_to_children_lookup.
    + apply sorted_Permutation.
    + apply sorted_ascending.
    + intros position. apply sorted_at_position.
Qed.

Lemma child_ids_ascending_and_stable_siblings :
  ∃ r,
    _transform_standard (_build_relationship_maps Scenario.siblings) Scenario.P
      (Scenario.standard_set_of Scenario.siblings) = inr r
    ∧ rec_child_ids r = ["b"; "d"; "c"; "a"]
    ∧ (∃ children, rec_child_ids r = children.*2 ∧ ascending children)
    ∧ std_id Scenario.P ∉ rec_child_ids r.
Proof.
  eexists. split; [reflexivity|]. split; [reflexivity|].
  destruct (child_ids_ascending_and_stable Scenario.siblings Scenario.P
              (Scenario.standard_set_of Scenario.siblings) _ eq_refl)
    as ((children & Hids & _ & Hasc & _) & Hself & _).
  split; [by exists children|].
  apply Hself.
  - by apply (bool_decide_unpack _).
  - by apply (bool_decide_unpack _).
  - done.
Defined.

(** C5 as the specification has it fails on a node that names itself as
    its parent: the node is among its own children. *)
Lemma self_parent_is_own_child :
  ∃ r,
    _transform_standard (_build_relationship_maps Scenario.loop_tree) Scenario.loop
      (Scenario.standard_set_of Scenario.loop_tree) = inr r
    ∧ rec_id r ∈ rec_child_ids r.
Proof. eexists. split; [reflexivity|]. simpl. apply list_elem_of_here. Qed.

(** C7. A record is a leaf exactly when no node of the tree, the node
    itself included, names its id as parent id; and a leaf has no child
    ids. *)
Theorem leaf_iff_no_node_names_it_parent
    (standards : list (string * Standard)) (standard : Standard)
    (standard_set : StandardSet) (r : PineconeRecord) :
  _transform_standard (_build_relationship_maps standards) standard standard_set
    = inr r →
  std_id standard ∈ standards.*1 →
  (rec_is_leaf r = true
   ↔ ∀ key node, (key, node) ∈ standards →
                 std_parentId node ≠ Some (std_id standard))
  ∧ (rec_is_leaf r = true → rec_child_ids r = []).
Proof.
  intros (content & document_id & document_valid & _ & _ & _ & ->)
           %transform_standard_inr Hin.
  simpl. rewrite bool_decide_eq_true, elem_of_leaf_nodes.
  split; [tauto|]. intros [_ Hnone].
  destruct (default [] _) as [|child children] eqn:Hchildren; [done|].
  assert (child ∈ default [] (_build_parent_to_children_map standards
                               !! Some (std_id standard))) as Hchild.
  { rewrite Hchildren. apply list_elem_of_here. }
  apply elem_of_child_ids in Hchild as (node & Hnode & Hparent).
  by destruct (Hnone child node).
Qed.

Lemma leaf_iff_no_node_names_it_parent_C2 :
  ∃ r,
    _transform_standard (_build_relationship_maps Scenario.chain) Scenario.C2
      (Scenario.standard_set_of Scenario.chain) = inr r
    ∧ std_id Scenario.C2 ∈ Scenario.chain.*1
    ∧ rec_is_leaf r = true
    ∧ rec_child_ids r = [].
Proof.
  eexists. split; [reflexivity|].
  assert (std_id Scenario.C2 ∈ Scenario.chain.*1) as Hin
    by by apply (bool_decide_unpack _).
  split; [exact Hin|]. split; [reflexivity|].
  by apply (leaf_iff_no_node_names_it_parent Scenario.chain Scenario.C2
              (Scenario.standard_set_of Scenario.chain) _ eq_refl Hin).
Defined.

(** C7 as the specification has it fails on a node that names itself as
    its parent: no other node names it, and it is not a leaf. *)
Lemma self_parent_is_not_leaf :
  ∃ r,
    _transform_standard (_build_relationship_maps Scenario.loop_tree) Scenario.loop
      (Scenario.standard_set_of Scenario.loop_tree) = inr r
    ∧ ¬ (rec_is_leaf r = true
         ↔ ∀ key node, (key, node) ∈ Scenario.loop_tree →
                       key ≠ std_id Scenario.loop →
                       std_parentId node ≠ Some (std_id Scenario.loop)).
Proof.
  eexists. split; [reflexivity|]. intros [_ Hleaf].
  enough (false = true) by done. apply Hleaf.
  intros key node [[= -> ->]|[]%elem_of_nil]%elem_of_cons Hkey. done.
Qed.

(** ** Content text *)

(** No [KeyError] on ids that are keys of the map: the lines are those of
    the nodes stored under them. *)
Lemma for_each_ancestor_line (id_to_standard : gmap string Standard)
    (ancestor_ids : list string) :
  Forall (λ a, is_Some (id_to_standard !! a)) ancestor_ids →
  ∃ chain,
    Forall2 (λ a node, id_to_standard !! a = Some node) ancestor_ids chain
    ∧ for_each (ancestor_line id_to_standard) ancestor_ids
      = inr (content_line <$> chain).
Proof.
  induction 1 as [|a ancestor_ids [node Hnode] _ (chain & Hchain & IH)].
  - by exists [].
  - exists (node :: chain). split; [by constructor|].
    simpl. unfold ancestor_line at 1. rewrite Hnode. simpl.
    by rewrite IH.
Qed.

(** The content text is built without a [KeyError], from the lines of the
    nodes stored under the ancestor ids and the line of the node. *)
Lemma build_content_text_lines (self : StandardSetProcessor) (standard : Standard) :
  ∃ chain,
    Forall2 (λ ancestor_id ancestor,
               id_to_standard self !! ancestor_id = Some ancestor)
            (build_ordered_ancestors standard (id_to_standard self)) chain
    ∧ _build_content_text self standard
      = inr (PyStr.join PyStr.newline (content_line <$> chain ++ [standard])).
Proof.
  destruct (for_each_ancestor_line (id_to_standard self)
              (build_ordered_ancestors standard (id_to_standard self))
              (build_ordered_ancestors_in_map _ _))
    as (chain & Hchain & Hlines).
  exists chain. split; [done|].
  unfold _build_content_text, bind. rewrite Hlines.
  by rewrite fmap_app.
Qed.


(** ** Education levels *)

Lemma first_seen_elem_of l x : x ∈ first_seen l ↔ x ∈ l.
Proof.
  induction l as [|y l IH]; simpl; [done|].
  rewrite !elem_of_cons, list_elem_of_filter, IH.
  destruct (decide (x = y)); tauto.
Qed.

Lemma first_seen_NoDup l : NoDup (first_seen l).
Proof.
  induction l as [|y l IH]; simpl; [constructor|].
  apply NoDup_cons. split; [|by apply NoDup_filter].
  rewrite list_elem_of_filter. tauto.
Qed.

(** The second loop of the validator keeps what is first seen. *)
Lemma dedupe_loop seen result l :
  (foldl dedupe_step (seen, result) l).2
  = result ++ filter (λ x, x ∉ seen) (first_seen l).
Proof.
  revert seen result. induction l as [|x l IH]; intros seen result; simpl.
  - by rewrite app_nil_r.
  - rewrite filter_cons, list_filter_filter. case_bool_decide as Hseen.
    + rewrite IH, decide_False by tauto. f_equal.
      apply list_filter_iff. intros y. split; [|tauto].
      intros Hy. split; [done|]. by intros ->.
    + rewrite IH, decide_True, <-app_assoc by done. simpl. do 2 f_equal.
      apply list_filter_iff. intros y.
      rewrite elem_of_union, elem_of_singleton. tauto.
Qed.

Lemma dedupe_first_seen l : dedupe l = first_seen l.
Proof.
  unfold dedupe. rewrite dedupe_loop. simpl.
  induction (first_seen l) as [|x k IH]; [done|].
  rewrite filter_cons, decide_True by apply not_elem_of_empty.
  by rewrite IH.
Qed.

Lemma split_items_strip_then_drop item :
  split_items item
  = filter (λ s, s ≠ "") (PyStr.strip <$> PyStr.split PyStr.comma item).
Proof.
  unfold split_items.
  induction (PyStr.split PyStr.comma item) as [|piece pieces IH]; [done|].
  rewrite fmap_cons, !filter_cons, <-IH.
  by case_decide.
Qed.

(** The first loop of the validator flattens the pieces of the strings. *)
Lemma flatten_levels_bind items :
  flatten_levels items = strings_of items ≫= split_items.
Proof.
  unfold flatten_levels.
  enough (∀ flattened,
            foldl (λ flattened item,
                     match item with
                     | PyStrItem s => flattened ++ split_items s
                     | PyOtherItem => flattened
                     end) flattened items
            = flattened ++ (strings_of items ≫= split_items)) as Hgen
    by apply (Hgen []).
  induction items as [|[s|] items IH]; intros flattened; simpl.
  - by rewrite app_nil_r.
  - by rewrite IH, <-app_assoc.
  - apply IH.
Qed.

Lemma bind_split_items levels :
  levels ≫= split_items
  = filter (λ s, s ≠ "") (PyStr.strip <$> (levels ≫= PyStr.split PyStr.comma)).
Proof.
  induction levels as [|item levels IH]; [done|].
  rewrite !bind_cons, fmap_app, filter_app, IH.
  by rewrite split_items_strip_then_drop.
Qed.

Lemma lstrip_begins s : begins_with_space (PyStr.lstrip s) = false.
Proof.
  induction s as [|c s IH]; [done|]. simpl.
  by destruct (PyStr.is_space c) eqn:Hc; [|simpl].
Qed.

Lemma lstrip_id s : begins_with_space s = false → PyStr.lstrip s = s.
Proof. destruct s as [|c s]; [done|]. simpl. by intros ->. Qed.

Lemma rstrip_begins s :
  begins_with_space s = false → begins_with_space (PyStr.rstrip s) = false.
Proof.
  destruct s as [|c s]; [done|]. simpl. intros Hc.
  destruct (PyStr.rstrip s); by rewrite ?Hc.
Qed.

Lemma rstrip_ends s : ends_with_space (PyStr.rstrip s) = false.
Proof.
  induction s as [|c s IH]; [done|]. simpl.
  destruct (PyStr.rstrip s) as [|d r] eqn:Hr.
  - by destruct (PyStr.is_space c) eqn:Hc; [|simpl].
  - exact IH.
Qed.

(** The pieces of a split hold no separator. *)
Lemma split_pieces_have_no_sep sep s :
  Forall (λ piece, has_char sep piece = false) (PyStr.split sep s).
Proof.
  induction s as [|c s IH]; simpl; [by repeat constructor|].
  destruct (Ascii.eqb c sep) eqn:Hc; [by constructor|].
  destruct (PyStr.split sep s) as [|w ws].
  - repeat constructor. simpl. by rewrite Hc.
  - apply Forall_cons in IH as [Hw Hws]. constructor; [|done].
    simpl. by rewrite Hc, Hw.
Qed.











(** ** The persisted document *)

Lemma for_each_inr {A B} (body : A → result B) (l : list A) (bs : list B) :
  for_each body l = inr bs → Forall2 (λ a b, body a = inr b) l bs.
Proof.
  revert bs. induction l as [|a l IH]; intros bs; simpl.
  - intros [= <-]. constructor.
  - unfold bind. destruct (body a) as [e|b] eqn:Hbody; [done|].
    destruct (for_each body l) as [e|bs'] eqn:Hrest; [done|].
    intros [= <-]. constructor; [done|]. by apply IH.
Qed.

(** A document is written only for a file that parses and validates, and
    holds the dump of one record per node, in order. *)
Lemma process_and_save_inr (data : data_file) (doc : json) :
  process_and_save data = inr doc →
  ∃ raw standard_set recs,
    data = ParsedJSON raw
    ∧ validate_standard_set raw = inr standard_set
    ∧ Forall2 (λ '(_, standard) r,
                 _transform_standard
                   (_build_relationship_maps (set_standards standard_set))
                   standard standard_set = inr r)
              (set_standards standard_set) recs
    ∧ doc = JObj [("records",
                   JArr (record_model_dump default_by_alias default_exclude_none
                           <$> recs))].
Proof.
  destruct data as [| |raw]; [done..|]. simpl.
  destruct (validate_standard_set raw) as [e|standard_set] eqn:Hvalid;
    [by destruct e|].
  unfold process_standard_set, bind.
  destruct (for_each _ (set_standards standard_set)) as [e|recs] eqn:Hloop; [done|].
  intros [= <-]. exists raw, standard_set, recs. split_and!; [done..| |done].
  apply for_each_inr in Hloop.
  eapply Forall2_impl; [exact Hloop|]. by intros [key standard] r.
Qed.

(** The dump that [process_and_save] writes has every field of the record,
    the identifier under the name of the field. *)
Lemma record_model_dump_default (r : PineconeRecord) :
  record_model_dump default_by_alias default_exclude_none r
  = JObj
      [ ("id", JStr (rec_id r));
        ("content", JStr (rec_content r));
        ("standard_set_id", JStr (rec_standard_set_id r));
        ("standard_set_title", JStr (rec_standard_set_title r));
        ("subject", JStr (rec_subject r));
        ("normalized_subject", nullable (rec_normalized_subject r));
        ("education_levels", JStrs (rec_education_levels r));
        ("document_id", JStr (rec_document_id r));
        ("document_valid", JStr (rec_document_valid r));
        ("publication_status", nullable (rec_publication_status r));
        ("jurisdiction_id", JStr (rec_jurisdiction_id r));
        ("jurisdiction_title", JStr (rec_jurisdiction_title r));
        ("asn_identifier", nullable (rec_asn_identifier r));
        ("statement_notation", nullable (rec_statement_notation r));
        ("statement_label", nullable (rec_statement_label r));
        ("depth", JInt (rec_depth r));
        ("is_leaf", JBool (rec_is_leaf r));
        ("is_root", JBool (rec_is_root r));
        ("parent_id", nullable (rec_parent_id r));
        ("root_id", JStr (rec_root_id r));
        ("ancestor_ids", JStrs (rec_ancestor_ids r));
        ("child_ids", JStrs (rec_child_ids r));
        ("sibling_count", JInt (rec_sibling_count r)) ].
Proof.
  unfold record_model_dump, default_by_alias, default_exclude_none.
  by destruct (rec_normalized_subject r), (rec_publication_status r),
    (rec_asn_identifier r), (rec_statement_notation r),
    (rec_statement_label r), (rec_parent_id r).
Qed.

(** C1. What the code does where the claim fails: in the document that
    [process_and_save] writes, the object of every record has all of the
    keys [statement_notation], [statement_label], [asn_identifier],
    [normalized_subject], [publication_status] and [parent_id], none is
    left out.  The first three hold the value of the node, or null when
    the node has none or an empty one; the next two hold the value of the
    set, or null when the set has none; [parent_id] holds the parent id of
    the node, or null for a root. *)
Theorem optional_fields_written_as_null (data : data_file) (doc : json) :
  process_and_save data = inr doc →
  ∃ raw standard_set objs,
    data = ParsedJSON raw
    ∧ validate_standard_set raw = inr standard_set
    ∧ doc = JObj [("records", JArr objs)]
    ∧ Forall2
        (λ '(_, standard) obj,
           json_get "statement_notation" obj
             = Some (nullable (if_truthy (std_statementNotation standard)))
           ∧ json_get "statement_label" obj
             = Some (nullable (if_truthy (std_statementLabel standard)))
           ∧ json_get "asn_identifier" obj
             = Some (nullable (if_truthy (std_asnIdentifier standard)))
           ∧ json_get "normalized_subject" obj
             = Some (nullable (set_normalizedSubject standard_set))
           ∧ json_get "publication_status" obj
             = Some (nullable (doc_publicationStatus (set_document standard_set)))
           ∧ json_get "parent_id" obj
             = Some (nullable (std_parentId standard)))
        (set_standards standard_set) objs.
Proof.
  intros (raw & standard_set & recs & -> & Hvalid & Hrecs & ->)
           %process_and_save_inr.
  exists raw, standard_set,
    (record_model_dump default_by_alias default_exclude_none <$> recs).
  split_and!; [done..|].
  apply Forall2_fmap_r. eapply Forall2_impl; [exact Hrecs|].
  intros [key standard] r
    (content & document_id & document_valid & _ & _ & _ & ->)
      %transform_standard_inr.
  unfold compose. by rewrite record_model_dump_default.
Qed.

Lemma optional_fields_written_as_null_root_only :
  ∃ doc,
    process_and_save (ParsedJSON Scenario.root_only) = inr doc
    ∧ ∃ obj, doc = JObj [("records", JArr [obj])]
             ∧ json_get "statement_notation" obj = Some JNull
             ∧ json_get "parent_id" obj = Some JNull.
Proof.
  eexists. split; [reflexivity|].
  destruct (optional_fields_written_as_null
              (ParsedJSON Scenario.root_only) _ eq_refl)
    as (raw & standard_set & objs & [= <-] & [= <-] & [= <-] & Hobjs).
  eexists. split; [reflexivity|].
  apply Forall2_cons_1 in Hobjs as [(Hnotation & _ & _ & _ & _ & Hparent) _].
  by split.
Defined.

(** The failing input: for a root without notation the key
    [statement_notation] is in the object of its record, holding null. *)
Lemma absent_notation_is_written :
  ∃ obj,
    process_and_save (ParsedJSON Scenario.root_only)
      = inr (JObj [("records", JArr [obj])])
    ∧ "statement_notation" ∈ json_keys obj
    ∧ json_get "statement_notation" obj = Some JNull.
Proof.
  eexists. split; [reflexivity|]. split; [|reflexivity].
  by apply (bool_decide_unpack _).
Qed.

(** C8. What the code does where the claim fails: the object that
    [process_and_save] writes for a record has the identifier under [id],
    and no key [_id]; its keys are the names of the fields whatever the
    record.  The dict built for the upload does have the identifier under
    [_id]. *)
Theorem persisted_identifier_is_under_id :
  (∃ obj,
     process_and_save (ParsedJSON Scenario.root_only)
       = inr (JObj [("records", JArr [obj])])
     ∧ json_get "id" obj = Some (JStr "R")
     ∧ json_get "_id" obj = None)
  ∧ (∀ r, json_keys (record_model_dump default_by_alias default_exclude_none r)
          = field_names)
  ∧ (∀ r, json_get "_id" (_record_to_dict r) = Some (JStr (rec_id r))).
Proof.
  split_and!.
  - eexists. split; [reflexivity|]. by split.
  - intros r. by rewrite record_model_dump_default.
  - intros r. unfold _record_to_dict, record_model_dump. by simpl.
Qed.

(** ** Malformed nodes *)

Lemma validate_standard_None (r : RawStandard) :
  validate_standard r = None ↔ missing_fields r ≠ [].
Proof.
  unfold validate_standard, missing_fields.
  by destruct (raw_id r), (raw_position r), (raw_depth r),
    (raw_description r), (raw_ancestorIds r).
Qed.

Lemma elem_of_validation_errors (standards : list (string * RawStandard))
    (key : string) (node : RawStandard) (field : string) :
  (key, node) ∈ standards →
  field ∈ missing_fields node →
  ["data"; "standards"; key; field] ∈ validation_errors standards.
Proof.
  intros Hnode Hfield. unfold validation_errors.
  apply list_elem_of_In, in_flat_map. exists (key, node).
  split; [by apply list_elem_of_In|].
  apply list_elem_of_In, list_elem_of_fmap. by exists field.
Qed.

(** One node that does not validate and the set does not validate. *)
Lemma validate_standard_set_missing (raw : RawStandardSet)
    (key : string) (node : RawStandard) (field : string) :
  (key, node) ∈ set_standards raw →
  field ∈ missing_fields node →
  validate_standard_set raw
  = inl (ValidationError (validation_errors (set_standards raw))).
Proof.
  intros Hnode Hfield. unfold validate_standard_set.
  destruct (mapM _ (set_standards raw)) as [standards|] eqn:Hall; [|done].
  exfalso.
  assert (is_Some (mapM (λ '(k, r), s ← validate_standard r; Some (k, s))
                     (set_standards raw))) as Hsome by by eexists.
  rewrite mapM_is_Some, Forall_forall in Hsome.
  specialize (Hsome (key, node) Hnode). simpl in Hsome.
  destruct (validate_standard node) eqn:Hvalid; [|by destruct Hsome].
  assert (validate_standard node ≠ None) as Hne by by rewrite Hvalid.
  rewrite validate_standard_None in Hne.
  destruct (missing_fields node); [by apply elem_of_nil in Hfield|].
  by apply Hne.
Qed.

(** The first node whose transformation raises ends the loop of
    [process_standard_set]. *)
Lemma for_each_first_failure {A B} (body : A → result B)
    (done_ : list A) (a : A) (rest : list A) (e : error) :
  Forall (λ x, ∃ b, body x = inr b) done_ →
  body a = inl e →
  for_each body (done_ ++ a :: rest) = inl e.
Proof.
  induction 1 as [|x done_ [b Hb] _ IH]; intros Ha; simpl; unfold bind.
  - by rewrite Ha.
  - by rewrite Hb, IH.
Qed.

(** C2. A node of the parsed JSON that lacks a required field makes the
    load of the whole tree fail: [process_and_save] raises a [ValueError]
    that carries the validation errors, among them the one that names the
    node and the field, and writes no document, so no record of any other
    node either.  Nor does [process_standard_set] go on after a failure:
    the first node whose transformation raises ends it with that
    exception. *)
Theorem malformed_node_fails_the_load (raw : RawStandardSet)
    (key : string) (node : RawStandard) (field : string) :
  (key, node) ∈ set_standards raw →
  field ∈ missing_fields node →
  (∃ locs,
     process_and_save (ParsedJSON raw) = inl (ValueError (FailedToParse locs))
     ∧ ["data"; "standards"; key; field] ∈ locs)
  ∧ (∀ doc, process_and_save (ParsedJSON raw) ≠ inr doc)
  ∧ (∀ (standard_set : StandardSet) done_ key' standard rest e,
       set_standards standard_set = done_ ++ (key', standard) :: rest →
       Forall (λ '(_, s),
                 ∃ r, _transform_standard
                        (_build_relationship_maps (set_standards standard_set))
                        s standard_set = inr r) done_ →
       _transform_standard (_build_relationship_maps (set_standards standard_set))
         standard standard_set = inl e →
       process_standard_set standard_set = inl e).
Proof.
  intros Hnode Hfield.
  assert (process_and_save (ParsedJSON raw)
          = inl (ValueError (FailedToParse (validation_errors (set_standards raw)))))
    as Hraise.
  { simpl. by rewrite (validate_standard_set_missing raw key node field). }
  split_and!.
  - eexists. split; [exact Hraise|]. by eapply elem_of_validation_errors.
  - intros doc. by rewrite Hraise.
  - intros standard_set done_ key' standard rest e Hsplit Hdone Hfail.
    unfold process_standard_set, bind.
    remember (_build_relationship_maps (set_standards standard_set)) as self.
    rewrite Hsplit.
    rewrite (for_each_first_failure _ done_ (key', standard) rest e); [done| |done].
    eapply Forall_impl; [exact Hdone|]. by intros [k s].
Qed.

Lemma malformed_node_fails_the_load_no_description :
  ("C1", Scenario.no_description) ∈ set_standards Scenario.malformed
  ∧ "description" ∈ missing_fields Scenario.no_description
  ∧ ∃ locs,
      process_and_save (ParsedJSON Scenario.malformed)
        = inl (ValueError (FailedToParse locs))
      ∧ ["data"; "standards"; "C1"; "description"] ∈ locs.
Proof.
  assert (("C1", Scenario.no_description) ∈ set_standards Scenario.malformed)
    as Hnode by (simpl; apply list_elem_of_further, list_elem_of_here).
  assert ("description" ∈ missing_fields Scenario.no_description)
    as Hfield by apply list_elem_of_here.
  split; [exact Hnode|]. split; [exact Hfield|].
  apply (malformed_node_fails_the_load Scenario.malformed "C1"
           Scenario.no_description "description" Hnode Hfield).
Defined.

(** C2 as the specification has it fails on a tree of a root and a child
    without description: the call raises for the whole tree, and the root,
    which is well formed, gets no record. *)
Lemma one_malformed_node_no_records :
  process_and_save (ParsedJSON Scenario.malformed)
    = inl (ValueError (FailedToParse [["data"; "standards"; "C1"; "description"]]))
  ∧ ¬ ∃ doc, process_and_save (ParsedJSON Scenario.malformed) = inr doc.
Proof. split; [reflexivity|]. by intros [doc Hdoc]. Qed.

(** With the id and the year of the document at hand, the transformation
    of a node returns a record. *)
Lemma transform_standard_returns (self : StandardSetProcessor) (standard : Standard)
    (standard_set : StandardSet) :
  is_Some (doc_id (set_document standard_set)) →
  is_Some (doc_valid (set_document standard_set)) →
  ∃ r, _transform_standard self standard standard_set = inr r.
Proof.
  intros [document_id Hid] [document_valid Hyear].
  destruct (build_content_text_lines self standard) as (chain & _ & Hcontent).
  unfold _transform_standard, bind. rewrite Hcontent, Hid, Hyear.
  by eexists.
Qed.

(** Then [process_standard_set] returns one record per node. *)
Lemma process_standard_set_returns (standard_set : StandardSet) :
  is_Some (doc_id (set_document standard_set)) →
  is_Some (doc_valid (set_document standard_set)) →
  ∃ recs,
    process_standard_set standard_set = inr {| records := recs |}
    ∧ length recs = length (set_standards standard_set).
Proof.
  intros Hid Hyear. unfold process_standard_set, bind.
  generalize (_build_relationship_maps (set_standards standard_set)).
  intros self.
  induction (set_standards standard_set) as [|[key standard] standards IH].
  - by exists [].
  - destruct IH as (recs & Hrecs & Hlen).
    destruct (transform_standard_returns self standard standard_set Hid Hyear)
      as [r Hr].
    exists (r :: recs). simpl. unfold bind. rewrite Hr.
    destruct (for_each _ standards) as [e|recs']; [done|].
    injection Hrecs as ->. split; [done|]. simpl. by rewrite Hlen.
Qed.

(** When every node validates and the document has its id and year, every
    node is transformed and the document holds one object per node. *)
Lemma well_formed_tree_is_processed (raw : RawStandardSet) :
  Forall (λ '(_, node), missing_fields node = []) (set_standards raw) →
  is_Some (doc_id (set_document raw)) →
  is_Some (doc_valid (set_document raw)) →
  ∃ objs,
    process_and_save (ParsedJSON raw) = inr (JObj [("records", JArr objs)])
    ∧ length objs = length (set_standards raw).
Proof.
  intros Hvalid Hid Hyear.
  unfold process_and_save, validate_standard_set, ok.
  destruct (mapM _ (set_standards raw)) as [standards|] eqn:Hall; cycle 1.
  { exfalso. apply mapM_None, Exists_exists in Hall as ([key node] & Hin & Hnone).
    rewrite Forall_forall in Hvalid. specialize (Hvalid _ Hin). simpl in *.
    destruct (validate_standard node) eqn:Hnode; [done|].
    apply validate_standard_None in Hnode. done. }
  pose proof (Forall2_length _ _ _ (proj1 (mapM_Some _ _ _) Hall)) as Hlen.
  cbv beta iota.
  match goal with
  | |- context [process_standard_set ?standard_set] =>
      destruct (process_standard_set_returns standard_set Hid Hyear)
        as (recs & Hrecs & Hcount)
  end.
  unfold bind. rewrite Hrecs. eexists. split; [reflexivity|].
  simpl in Hcount. rewrite length_fmap. simpl. congruence.
Qed.

(** ** The map of a tree loaded from the API *)

Lemma build_id_to_standard_map_keys_are_ids (standards : list (string * Standard)) :
  NoDup standards.*1 →
  Forall (λ '(key, node), std_id node = key) standards →
  keys_are_ids (_build_id_to_standard_map standards).
Proof.
  intros Hkeys Hids key node Hlookup.
  apply build_id_to_standard_map_lookup in Hlookup; [|done].
  rewrite Forall_forall in Hids. by apply (Hids (key, node)).
Qed.

(** ** The cases of the test suite *)

Example test_build_parent_to_children_map :
  let result := _build_parent_to_children_map Scenario.chain in
  result !! None = Some ["R"]
  ∧ result !! Some "R" = Some ["C1"]
  ∧ result !! Some "C1" = Some ["C2"]
  ∧ result !! Some "C2" = None.
Proof. by vm_compute. Qed.

Example test_identify_leaf_nodes :
  let result := _identify_leaf_nodes Scenario.chain in
  bool_decide ("C2" ∈ result) = true
  ∧ bool_decide ("R" ∈ result) = false
  ∧ bool_decide ("C1" ∈ result) = false.
Proof. by vm_compute. Qed.

Example test_identify_root_nodes :
  let result := _identify_root_nodes Scenario.chain in
  bool_decide ("R" ∈ result) = true
  ∧ bool_decide ("C1" ∈ result) = false
  ∧ bool_decide ("C2" ∈ result) = false.
Proof. by vm_compute. Qed.

Example test_find_root_id :
  let id_to_standard := _build_id_to_standard_map Scenario.chain in
  find_root_id Scenario.R id_to_standard = "R"
  ∧ find_root_id Scenario.C2 id_to_standard = "R".
Proof. by vm_compute. Qed.

Example test_build_ordered_ancestors :
  let id_to_standard := _build_id_to_standard_map Scenario.chain in
  build_ordered_ancestors Scenario.R id_to_standard = []
  ∧ build_ordered_ancestors Scenario.C1 id_to_standard = ["R"]
  ∧ build_ordered_ancestors Scenario.C2 id_to_standard = ["R"; "C1"].
Proof. by vm_compute. Qed.

Example test_compute_sibling_count :
  let self := _build_relationship_maps Scenario.siblings in
  _compute_sibling_count self Scenario.P = 0
  ∧ _compute_sibling_count self (Scenario.node "a" 300 1 "a" None (Some "P")) = 3.
Proof. by vm_compute. Qed.

Example test_build_content_text :
  let self := _build_relationship_maps Scenario.chain in
  _build_content_text self Scenario.R = inr "Depth 0: Math"
  ∧ _build_content_text self Scenario.C1
    = inr ("Depth 0: Math" +:+ PyStr.newline +:+ "Depth 1 (1.1): Numbers").
Proof. by vm_compute. Qed.

Example test_education_levels :
  process_education_levels (PyList [PyStrItem "01"; PyStrItem "02"]) = ["01"; "02"]
  ∧ process_education_levels (PyList [PyStrItem "09,10,11,12"])
    = ["09"; "10"; "11"; "12"]
  ∧ process_education_levels (PyList []) = []
  ∧ process_education_levels (PyList [PyStrItem "01 , 02"; PyStrItem " 03 "])
    = ["01"; "02"; "03"].
Proof. by vm_compute. Qed.

Example test_process_standard_set :
  ∃ recs,
    process_standard_set (Scenario.standard_set_of Scenario.chain)
      = inr {| records := recs |}
    ∧ rec_id <$> recs = ["R"; "C1"; "C2"]
    ∧ rec_is_leaf <$> recs = [false; false; true]
    ∧ rec_is_root <$> recs = [true; false; false]
    ∧ rec_root_id <$> recs = ["R"; "R"; "R"].
Proof. eexists. split; [by vm_compute|]. by vm_compute. Qed.

Example test_process_and_save_missing_file :
  process_and_save NoFile = inl FileNotFoundError
  ∧ process_and_save NotJSON = inl (ValueError InvalidJSON).
Proof. done. Qed.

(** * Further properties of the code *)

(** ** The batch of records *)

(** X1. With the id and the year of the document at hand,
    [process_standard_set] returns one record per node, in the order the
    input map iterates them, each with the id, the depth and the parent id
    of its node and the id of the set. *)
Theorem process_standard_set_one_record_per_node (standard_set : StandardSet) :
  is_Some (doc_id (set_document standard_set)) →
  is_Some (doc_valid (set_document standard_set)) →
  ∃ recs,
    process_standard_set standard_set = inr {| records := recs |}
    ∧ Forall2 (λ '(_, node) r,
                 rec_id r = std_id node
                 ∧ rec_depth r = std_depth node
                 ∧ rec_parent_id r = std_parentId node
                 ∧ rec_standard_set_id r = set_id standard_set)
              (set_standards standard_set) recs.
Proof.
  intros Hid Hyear.
  destruct (process_standard_set_returns standard_set Hid Hyear)
    as (recs & Hrecs & _).
  exists recs. split; [done|].
  unfold process_standard_set, bind in Hrecs.
  destruct (for_each _ (set_standards standard_set)) as [e|recs'] eqn:Hloop;
    [done|].
  injection Hrecs as ->. apply for_each_inr in Hloop.
  eapply Forall2_impl; [exact Hloop|].
  intros [key node] r
    (content & document_id & document_valid & _ & _ & _ & ->)
      %transform_standard_inr.
  done.
Qed.

Lemma process_standard_set_one_record_per_node_chain :
  ∃ recs,
    process_standard_set (Scenario.standard_set_of Scenario.chain)
      = inr {| records := recs |}
    ∧ rec_id <$> recs = ["R"; "C1"; "C2"].
Proof.
  destruct (process_standard_set_one_record_per_node
              (Scenario.standard_set_of Scenario.chain))
    as (recs & Hrecs & Hfields).
  - by eexists.
  - by eexists.
  - exists recs. split; [exact Hrecs|].
    simpl in Hfields.
    apply Forall2_cons_inv_l in Hfields as (r1 & recs1 & [H1 _] & Hfields & ->).
    apply Forall2_cons_inv_l in Hfields as (r2 & recs2 & [H2 _] & Hfields & ->).
    apply Forall2_cons_inv_l in Hfields as (r3 & recs3 & [H3 _] & Hfields & ->).
    apply Forall2_nil_inv_l in Hfields as ->.
    simpl. by rewrite H1, H2, H3.
Defined.

(** X2. A set whose document has no id, or no year, cannot be processed:
    on a tree that is not empty [process_standard_set] raises the
    validation error of the first record, which names the document field
    that is missing, and returns no record. *)
Theorem process_standard_set_needs_document (standard_set : StandardSet) :
  set_standards standard_set ≠ [] →
  doc_id (set_document standard_set) = None
  ∨ doc_valid (set_document standard_set) = None →
  ∃ locs,
    process_standard_set standard_set = inl (ValidationError locs)
    ∧ (doc_id (set_document standard_set) = None → ["document_id"] ∈ locs)
    ∧ (doc_valid (set_document standard_set) = None →
       ["document_valid"] ∈ locs).
Proof.
  intros Hnodes Hmissing. unfold process_standard_set, bind.
  generalize (_build_relationship_maps (set_standards standard_set)).
  intros self.
  destruct (set_standards standard_set) as [|[key node] rest]; [done|].
  simpl. unfold bind, _transform_standard at 1, bind.
  destruct (build_content_text_lines self node) as (chain & _ & ->).
  destruct (doc_id (set_document standard_set)) as [document_id|] eqn:Hid,
    (doc_valid (set_document standard_set)) as [document_valid|] eqn:Hyear;
    [by destruct Hmissing|..]; eexists; (split; [reflexivity|]);
    simpl; split; intros; (done || apply list_elem_of_here
                           || apply list_elem_of_further, list_elem_of_here).
Qed.

Lemma process_standard_set_needs_document_chain :
  set_standards chain_without_document_id ≠ []
  ∧ ∃ locs,
      process_standard_set chain_without_document_id
        = inl (ValidationError locs)
      ∧ ["document_id"] ∈ locs.
Proof.
  assert (set_standards chain_without_document_id ≠ []) as Hnodes by done.
  split; [exact Hnodes|].
  destruct (process_standard_set_needs_document chain_without_document_id
              Hnodes (or_introl eq_refl))
    as (locs & Hraise & Hid & _).
  exists locs. split; [exact Hraise|]. by apply Hid.
Defined.

(** ** Siblings, roots and groups *)

Lemma children_of_keys (parent_id : option string)
    (standards : list (string * Standard)) :
  (children_of parent_id standards).*2
  = (filter (λ '(_, std), std_parentId std = parent_id) standards).*1.
Proof.
  unfold children_of. rewrite <-list_fmap_compose.
  apply list_fmap_ext. by intros i [key std].
Qed.

Lemma children_of_keys_NoDup (parent_id : option string)
    (standards : list (string * Standard)) :
  NoDup standards.*1 → NoDup (children_of parent_id standards).*2.
Proof.
  intros Hkeys. rewrite children_of_keys.
  apply (sublist_NoDup _ standards.*1); [exact Hkeys|].
  apply fmap_sublist, sublist_filter.
Qed.

Lemma child_ids_NoDup (parent_id : option string)
    (standards : list (string * Standard)) :
  NoDup standards.*1 →
  NoDup (default [] (_build_parent_to_children_map standards !! parent_id)).
Proof.
  intros Hkeys. rewrite parent_to_children_lookup, sorted_Permutation.
  by apply children_of_keys_NoDup.
Qed.

(** Taking one member out of a list without repeats. *)
Lemma length_filter_out {A} `{EqDecision A} (x : A) (l : list A) :
  NoDup l → x ∈ l → S (length (filter (λ y, y ≠ x) l)) = length l.
Proof.
  induction 1 as [|y l Hy Hl IH]; [by intros ?%elem_of_nil|].
  rewrite filter_cons. intros [->|Hx]%elem_of_cons.
  - rewrite decide_False by tauto. simpl. f_equal.
    clear IH. induction l as [|z l IH]; [done|].
    apply not_elem_of_cons in Hy as [Hz Hy]. apply NoDup_cons in Hl as [_ Hl].
    rewrite filter_cons, decide_True by done. simpl. f_equal. by apply IH.
  - rewrite decide_True by by intros ->. simpl. f_equal. by apply IH.
Qed.

(** X3. In a tree whose keys are distinct, the sibling count of a node
    stored under its id is the number of nodes that have the same parent
    id as the node, less one: the other roots for a root. *)
Theorem sibling_count_is_group_size_less_one
    (standards : list (string * Standard)) (standard : Standard) :
  NoDup standards.*1 →
  (std_id standard, standard) ∈ standards →
  _compute_sibling_count (_build_relationship_maps standards) standard
  = Z.of_nat (length (children_of (std_parentId standard) standards)) - 1.
Proof.
  intros Hkeys Hin. unfold _compute_sibling_count. simpl.
  pose proof (parent_to_children_lookup standards (std_parentId standard))
    as Hgroup.
  assert (std_id standard
          ∈ (sorted (children_of (std_parentId standard) standards)).*2)
    as Hmember.
  { rewrite <-Hgroup. apply elem_of_child_ids. by exists standard. }
  destruct (_build_parent_to_children_map standards !! std_parentId standard)
    as [siblings|]; simpl in Hgroup.
  - rewrite Hgroup.
    assert (NoDup (sorted (children_of (std_parentId standard) standards)).*2)
      as Hdistinct.
    { rewrite sorted_Permutation. by apply children_of_keys_NoDup. }
    pose proof (length_filter_out _ _ Hdistinct Hmember) as Hlen.
    rewrite length_fmap, sorted_Permutation in Hlen.
    rewrite sorted_Permutation. lia.
  - rewrite <-Hgroup in Hmember. by apply elem_of_nil in Hmember.
Qed.

Lemma sibling_count_is_group_size_less_one_siblings :
  NoDup Scenario.siblings.*1
  ∧ _compute_sibling_count (_build_relationship_maps Scenario.siblings)
      (Scenario.node "a" 300 1 "a" None (Some "P")) = 3.
Proof.
  assert (NoDup Scenario.siblings.*1) as Hkeys
    by by apply (bool_decide_unpack _).
  split; [exact Hkeys|].
  rewrite (sibling_count_is_group_size_less_one Scenario.siblings
             (Scenario.node "a" 300 1 "a" None (Some "P")) Hkeys).
  - reflexivity.
  - apply list_elem_of_here.
Defined.

(** X4. The root nodes are the keys grouped under the null parent id. *)
Theorem root_nodes_are_children_of_none
    (standards : list (string * Standard)) (std_id : string) :
  std_id ∈ _identify_root_nodes standards
  ↔ std_id ∈ default [] (_build_parent_to_children_map standards !! None).
Proof.
  rewrite elem_of_child_ids. unfold _identify_root_nodes.
  rewrite elem_of_list_to_set, list_elem_of_fmap. split.
  - intros ([key std] & -> & [Hroot Hin]%list_elem_of_filter). by exists std.
  - intros (std & Hin & Hroot). exists (std_id, std). split; [done|].
    by apply list_elem_of_filter.
Qed.

Lemma parent_to_children_entries
    (standards : list (string * Standard)) (parent_id : option string) :
  (is_Some (_build_parent_to_children_map standards !! parent_id)
   ↔ ∃ std_id std, (std_id, std) ∈ standards ∧ std_parentId std = parent_id)
  ∧ _build_parent_to_children_map standards !! parent_id ≠ Some [].
Proof.
  unfold _build_parent_to_children_map.
  rewrite lookup_fmap, group_by_parent_lookup.
  destruct (children_of parent_id standards) as [|[position key] children]
    eqn:Hchildren; simpl.
  - split; [|done]. split; [by intros [? ?]|].
    intros (std_id & std & Hin & Hparent).
    assert ((std_position std, std_id) ∈ children_of parent_id standards)
      as Hmember by (apply elem_of_children_of; by exists std).
    rewrite Hchildren in Hmember. by apply elem_of_nil in Hmember.
  - split.
    + split; [|by eexists]. intros _.
      assert ((position, key) ∈ children_of parent_id standards) as Hmember
        by (rewrite Hchildren; apply list_elem_of_here).
      apply elem_of_children_of in Hmember as (std & ? & ? & _).
      by exists key, std.
    + intros [= Hnil]. apply fmap_nil_inv in Hnil.
      apply (f_equal length) in Hnil.
      change (length (sorted ((position, key) :: children)) = 0%nat) in Hnil.
      by rewrite sorted_Permutation in Hnil.
Qed.


(** X5. The parent-to-children map has an entry for a parent id exactly
    when some node names it, null included, and no entry is an empty
    list. *)
Theorem parent_to_children_has_no_empty_group
    (standards : list (string * Standard)) (parent_id : option string) :
  (is_Some (_build_parent_to_children_map standards !! parent_id)
   ↔ ∃ std_id std, (std_id, std) ∈ standards ∧ std_parentId std = parent_id)
  ∧ _build_parent_to_children_map standards !! parent_id ≠ Some [].
Proof. apply parent_to_children_entries. Qed.

(** X6. The leaf nodes are the keys of the tree for which the
    parent-to-children map has no entry. *)
Theorem leaf_nodes_have_no_group
    (standards : list (string * Standard)) (std_id : string) :
  std_id ∈ _identify_leaf_nodes standards
  ↔ std_id ∈ standards.*1
    ∧ _build_parent_to_children_map standards !! Some std_id = None.
Proof.
  rewrite elem_of_leaf_nodes.
  destruct (parent_to_children_entries standards (Some std_id))
    as [Hentry _].
  rewrite eq_None_not_Some, Hentry. split; intros [Hkey Hnone].
  - split; [done|]. intros (key & std & Hin & Hparent). by apply (Hnone key std).
  - split; [done|]. intros key std Hin Hparent. apply Hnone. by exists key, std.
Qed.

(** X7. In a tree whose keys are distinct, the child lists split the keys:
    no list holds a key twice, and the key of a node is in the list of a
    parent id exactly when that is the parent id of the node. *)
Theorem child_lists_split_the_keys
    (standards : list (string * Standard)) (std_id : string) (standard : Standard)
    (parent_id : option string) :
  NoDup standards.*1 →
  (std_id, standard) ∈ standards →
  NoDup (default [] (_build_parent_to_children_map standards !! parent_id))
  ∧ (std_id ∈ default [] (_build_parent_to_children_map standards !! parent_id)
     ↔ parent_id = std_parentId standard).
Proof.
  intros Hkeys Hin. split; [by apply child_ids_NoDup|].
  rewrite elem_of_child_ids. split.
  - intros (std & Hin' & <-).
    by rewrite (unique_under_key standards std_id std standard).
  - intros ->. by exists standard.
Qed.

Lemma child_lists_split_the_keys_siblings :
  NoDup Scenario.siblings.*1
  ∧ ("P", Scenario.P) ∈ Scenario.siblings
  ∧ ("P" ∈ default []
             (_build_parent_to_children_map Scenario.siblings !! Some "P")
     ↔ Some "P" = std_parentId Scenario.P).
Proof.
  assert (NoDup Scenario.siblings.*1) as Hkeys
    by by apply (bool_decide_unpack _).
  assert (("P", Scenario.P) ∈ Scenario.siblings) as Hin
    by by apply (bool_decide_unpack _).
  split; [exact Hkeys|]. split; [exact Hin|].
  apply (child_lists_split_the_keys Scenario.siblings "P" Scenario.P
           (Some "P") Hkeys Hin).
Defined.

(** ** The shape of the ancestor list *)

Section AncestorList.
Context (id_to_standard : gmap string Standard) (standard : Standard).

Lemma ancestors_step_stop st r :
  ancestors_step id_to_standard st = inr r →
  r = ancestors st
  ∧ match current_id st with
    | None => True
    | Some cur => cur ∈ visited st ∨ id_to_standard !! cur = None
    end.
Proof.
  unfold ancestors_step.
  destruct (current_id st) as [cur|]; [|by intros [= <-]].
  case_bool_decide; [intros [= <-]; split; [done|by left]|].
  destruct (id_to_standard !! cur); [done|].
  intros [= <-]. split; [done|by right].
Qed.

Lemma linked_snoc walked cur :
  linked id_to_standard walked →
  next_of id_to_standard standard walked = Some cur →
  linked id_to_standard (walked ++ [cur]).
Proof.
  intros Hlinked Hnext i x y Hx Hy.
  destruct (decide (S i < length walked)%nat) as [Hlt|Hge].
  - rewrite lookup_app_l in Hx by lia. rewrite lookup_app_l in Hy by lia.
    by apply (Hlinked i).
  - pose proof (lookup_lt_Some _ _ _ Hy) as Hbound.
    rewrite length_app in Hbound. simpl in Hbound.
    assert (S i = length walked) as Hi by lia.
    rewrite lookup_app_l in Hx by lia.
    rewrite lookup_app_r, Hi, Nat.sub_diag in Hy by lia.
    injection Hy as <-. unfold next_of in Hnext.
    assert (last walked = Some x) as Hlast.
    { rewrite last_lookup. rewrite <-Hi. exact Hx. }
    by rewrite Hlast in Hnext.
Qed.

Lemma walk_invariant_step st st' :
  walk_invariant id_to_standard standard st →
  ancestors_step id_to_standard st = inl st' →
  walk_invariant id_to_standard standard st'.
Proof.
  intros (Hdistinct & Hvisited & Hmap & Hlinked & Hcur)
         (cur & node & Hcur' & Hfresh & Hnode & ->)%ancestors_step_inl.
  rewrite Hcur in Hcur'. unfold walk_invariant. simpl. split_and!.
  - apply NoDup_app. split_and!; [done| |apply NoDup_singleton].
    intros a Ha ->%list_elem_of_singleton. by apply Hfresh, Hvisited.
  - intros a. rewrite elem_of_union, elem_of_singleton, elem_of_app,
      list_elem_of_singleton, Hvisited. tauto.
  - apply Forall_app. split; [done|]. apply Forall_singleton. by rewrite Hnode.
  - by apply linked_snoc.
  - unfold next_of, parent_of. by rewrite last_snoc, Hnode.
Qed.

Lemma walk_invariant_exit st r :
  walk_invariant id_to_standard standard st →
  ancestors_step id_to_standard st = inr r →
  walk_outcome id_to_standard standard r.
Proof.
  intros (Hdistinct & Hvisited & Hmap & Hlinked & Hcur) [-> Hstop]%ancestors_step_stop.
  unfold walk_outcome. split_and!; [done..|].
  rewrite <-Hcur. destruct (current_id st) as [cur|]; [|done].
  destruct Hstop as [Hseen|Hmissing]; [left; by apply Hvisited|by right].
Qed.

Lemma ancestors_loop_outcome fuel walked n :
  ancestors_loop fuel standard id_to_standard = Some (walked, n) →
  walk_outcome id_to_standard standard walked.
Proof.
  unfold ancestors_loop.
  apply (while_loop_invariant (ancestors_step id_to_standard)
           (walk_invariant id_to_standard standard)
           (walk_outcome id_to_standard standard)
           walk_invariant_step walk_invariant_exit).
  unfold walk_invariant. simpl. split_and!; [constructor| |constructor| |done].
  - intros a. by rewrite elem_of_empty, elem_of_nil.
  - by intros i x y ?.
Qed.
End AncestorList.

(** X8. Whatever the parent ids of the map are like, cycles included, the
    ancestor list holds no id twice and every id in it is a key of the
    map. *)
Theorem ancestors_are_distinct_keys
    (id_to_standard : gmap string Standard) (standard : Standard) :
  NoDup (build_ordered_ancestors standard id_to_standard)
  ∧ Forall (λ a, is_Some (id_to_standard !! a))
           (build_ordered_ancestors standard id_to_standard).
Proof.
  destruct (ancestors_loop_terminates id_to_standard standard 0)
    as (walked & steps & Hrun & _).
  rewrite (build_ordered_ancestors_loop _ _ _ _ _ Hrun).
  apply ancestors_loop_outcome in Hrun as (Hdistinct & Hmap & _).
  split; [by rewrite reverse_Permutation|by apply Forall_reverse].
Qed.

(** X9. The ancestor list is a chain of parents: every id in it but the
    first is stored with the id before it as its parent id.  The node
    stored under the first id has no parent id, or one that is no key of
    the map, or one that is already in the list. *)
Theorem ancestors_are_linked_by_parent
    (id_to_standard : gmap string Standard) (standard : Standard) :
  (∀ i a b,
     build_ordered_ancestors standard id_to_standard !! i = Some a →
     build_ordered_ancestors standard id_to_standard !! S i = Some b →
     ∃ node, id_to_standard !! b = Some node ∧ std_parentId node = Some a)
  ∧ (∀ top,
       head (build_ordered_ancestors standard id_to_standard) = Some top →
       ∃ node,
         id_to_standard !! top = Some node
         ∧ match std_parentId node with
           | None => True
           | Some parent_id =>
               parent_id ∈ build_ordered_ancestors standard id_to_standard
               ∨ id_to_standard !! parent_id = None
           end).
Proof.
  destruct (ancestors_loop_terminates id_to_standard standard 0)
    as (walked & steps & Hrun & _).
  rewrite (build_ordered_ancestors_loop _ _ _ _ _ Hrun).
  apply ancestors_loop_outcome in Hrun as (_ & Hmap & Hlinked & Hnext).
  split.
  - intros i a b [Ha Hi]%reverse_lookup_Some [Hb HSi]%reverse_lookup_Some.
    replace (length walked - S i)%nat with (S (length walked - S (S i)))
      in Ha by lia.
    pose proof (Hlinked _ _ _ Hb Ha) as Hparent. unfold parent_of in Hparent.
    destruct (id_to_standard !! b) as [node|]; [|done]. by exists node.
  - intros top Htop. rewrite head_reverse in Htop.
    unfold next_of in Hnext. rewrite Htop in Hnext. unfold parent_of in Hnext.
    assert (top ∈ walked) as Hin.
    { apply last_Some in Htop as [walked' ->]. apply elem_of_app. right.
      apply list_elem_of_here. }
    rewrite Forall_forall in Hmap. destruct (Hmap top Hin) as [node Hnode].
    exists node. split; [done|]. rewrite Hnode in Hnext. simpl in Hnext.
    destruct (std_parentId node) as [parent_id|]; [|done].
    by rewrite elem_of_reverse.
Qed.

(** X10. For a tree whose keys are distinct and are the ids of its nodes,
    the root id of a record is the first of its ancestor ids, or its own id
    when it has no ancestors; the record is a root exactly when its parent
    id is null, and a root has no ancestors and is its own root. *)
Theorem record_root_is_first_ancestor
    (standards : list (string * Standard)) (standard : Standard)
    (standard_set : StandardSet) (r : PineconeRecord) :
  NoDup standards.*1 →
  Forall (λ '(key, node), std_id node = key) standards →
  _transform_standard (_build_relationship_maps standards) standard standard_set
    = inr r →
  rec_root_id r = default (rec_id r) (head (rec_ancestor_ids r))
  ∧ (rec_is_root r = true ↔ rec_parent_id r = None)
  ∧ (rec_is_root r = true →
     rec_ancestor_ids r = [] ∧ rec_root_id r = rec_id r).
Proof.
  intros Hkeys Hids
    (content & document_id & document_valid & _ & _ & _ & ->)
      %transform_standard_inr.
  simpl.
  pose proof (build_id_to_standard_map_keys_are_ids standards Hkeys Hids)
    as Hmap.
  split_and!.
  - case_bool_decide as Hroot.
    + by rewrite build_ordered_ancestors_none by by left.
    + by apply find_root_id_last_ancestor.
  - by rewrite bool_decide_eq_true.
  - intros Hroot%bool_decide_eq_true.
    rewrite bool_decide_eq_true_2 by done.
    split; [|done]. apply build_ordered_ancestors_none. by left.
Qed.

Lemma record_root_is_first_ancestor_C2 :
  ∃ r,
    _transform_standard (_build_relationship_maps Scenario.chain) Scenario.C2
      (Scenario.standard_set_of Scenario.chain) = inr r
    ∧ rec_root_id r = "R"
    ∧ rec_root_id r = default (rec_id r) (head (rec_ancestor_ids r)).
Proof.
  eexists. split; [reflexivity|]. split; [reflexivity|].
  apply (record_root_is_first_ancestor Scenario.chain Scenario.C2
           (Scenario.standard_set_of Scenario.chain)).
  - by apply (bool_decide_unpack _).
  - by apply (bool_decide_unpack _).
  - reflexivity.
Defined.

(** ** Strings *)

Lemma rstrip_idempotent s : PyStr.rstrip (PyStr.rstrip s) = PyStr.rstrip s.
Proof.
  induction s as [|c s IH]; [done|]. simpl.
  destruct (PyStr.rstrip s) as [|d r] eqn:Hr.
  - destruct (PyStr.is_space c) eqn:Hc; [done|]. simpl. by rewrite Hc.
  - change (PyStr.rstrip (String c (String d r))) with
      (match PyStr.rstrip (String d r) with
       | EmptyString =>
           if PyStr.is_space c then EmptyString else String c EmptyString
       | t => String c t
       end).
    by rewrite IH.
Qed.

(** Stripping what is stripped changes nothing. *)
Lemma strip_idempotent s : PyStr.strip (PyStr.strip s) = PyStr.strip s.
Proof.
  unfold PyStr.strip.
  rewrite (lstrip_id (PyStr.rstrip (PyStr.lstrip s)))
    by apply rstrip_begins, lstrip_begins.
  apply rstrip_idempotent.
Qed.

Lemma lstrip_has_char c s :
  has_char c s = false → has_char c (PyStr.lstrip s) = false.
Proof.
  induction s as [|d s IH]; [done|]. simpl.
  intros [Hd Hs]%orb_false_elim.
  destruct (PyStr.is_space d); [by apply IH|]. simpl. by rewrite Hd, Hs.
Qed.

Lemma rstrip_has_char c s :
  has_char c s = false → has_char c (PyStr.rstrip s) = false.
Proof.
  induction s as [|d s IH]; [done|]. simpl.
  intros [Hd Hs]%orb_false_elim. specialize (IH Hs).
  destruct (PyStr.rstrip s) as [|e r].
  - destruct (PyStr.is_space d); [done|]. simpl. by rewrite Hd.
  - simpl in *. by rewrite Hd, IH.
Qed.

Lemma strip_has_char c s :
  has_char c s = false → has_char c (PyStr.strip s) = false.
Proof. intros Hs. by apply rstrip_has_char, lstrip_has_char. Qed.

(** A string without the separator is its only piece. *)
Lemma split_without_sep sep s :
  has_char sep s = false → PyStr.split sep s = [s].
Proof.
  induction s as [|c s IH]; [done|]. simpl.
  intros [Hc Hs]%orb_false_elim. by rewrite Hc, IH.
Qed.

Lemma first_seen_of_distinct l : NoDup l → first_seen l = l.
Proof.
  induction 1 as [|x l Hx Hl IH]; [done|]. simpl. rewrite IH. f_equal.
  clear IH Hl. induction l as [|y l IH]; [done|].
  apply not_elem_of_cons in Hx as [Hy Hx].
  rewrite filter_cons, decide_True by done. f_equal. by apply IH.
Qed.

Lemma strings_of_strings (l : list string) : strings_of (PyStrItem <$> l) = l.
Proof.
  unfold strings_of. induction l as [|x l IH]; [done|].
  rewrite fmap_cons. simpl. f_equal. exact IH.
Qed.

(** ** Education levels, further *)

Lemma process_education_levels_normalized (items : list py_item) :
  process_education_levels (PyList items) = normalized_levels (strings_of items).
Proof.
  simpl. by rewrite dedupe_first_seen, flatten_levels_bind, bind_split_items.
Qed.

Lemma normalized_level_inv (levels : list string) (level : string) :
  level ∈ normalized_levels levels →
  level ≠ ""
  ∧ ∃ piece, level = PyStr.strip piece ∧ has_char PyStr.comma piece = false.
Proof.
  unfold normalized_levels.
  rewrite first_seen_elem_of, list_elem_of_filter, list_elem_of_fmap.
  intros (Hne & piece & -> & (item & Hpiece & _)%list_elem_of_bind).
  split; [done|]. exists piece. split; [done|].
  pose proof (split_pieces_have_no_sep PyStr.comma item) as Hpieces.
  rewrite Forall_forall in Hpieces. by apply Hpieces.
Qed.

(** X11. Every level that the validator of [education_levels] returns is
    not empty, holds no comma, and neither begins nor ends with white
    space. *)
Theorem education_levels_are_clean (items : list py_item) (level : string) :
  level ∈ process_education_levels (PyList items) →
  level ≠ ""
  ∧ has_char PyStr.comma level = false
  ∧ begins_with_space level = false
  ∧ ends_with_space level = false.
Proof.
  rewrite process_education_levels_normalized.
  intros (Hne & piece & -> & Hcomma)%normalized_level_inv.
  split_and!; [done|by apply strip_has_char| |apply rstrip_ends].
  apply rstrip_begins, lstrip_begins.
Qed.

Lemma education_levels_are_clean_example :
  "02" ∈ process_education_levels (PyList [PyStrItem "01 , 02"; PyStrItem " 03 "])
  ∧ has_char PyStr.comma "02" = false.
Proof.
  assert ("02" ∈ process_education_levels
                   (PyList [PyStrItem "01 , 02"; PyStrItem " 03 "])) as Hin
    by by apply (bool_decide_unpack _).
  split; [exact Hin|].
  by apply (education_levels_are_clean _ _ Hin).
Defined.

(** X12. The validator changes nothing in a list it has returned: loading
    back levels that were normalized once gives the same levels. *)
Theorem education_levels_idempotent (items : list py_item) :
  process_education_levels
    (PyList (PyStrItem <$> process_education_levels (PyList items)))
  = process_education_levels (PyList items).
Proof.
  rewrite (process_education_levels_normalized (PyStrItem <$> _)).
  rewrite strings_of_strings, process_education_levels_normalized.
  pose proof (first_seen_NoDup
                (filter (λ s, s ≠ "")
                   (PyStr.strip
                      <$> (strings_of items ≫= PyStr.split PyStr.comma))))
    as Hdistinct.
  fold (normalized_levels (strings_of items)) in Hdistinct.
  pose proof (normalized_level_inv (strings_of items)) as Hclean.
  revert Hdistinct Hclean.
  generalize (normalized_levels (strings_of items)). intros out Hdistinct Hclean.
  unfold normalized_levels.
  assert (filter (λ s, s ≠ "") (PyStr.strip <$> (out ≫= PyStr.split PyStr.comma))
          = out) as ->; [|by apply first_seen_of_distinct].
  clear Hdistinct. induction out as [|level out IH]; [done|].
  destruct (Hclean level) as (Hne & piece & -> & Hcomma);
    [apply list_elem_of_here|].
  rewrite bind_cons, (split_without_sep _ _ (strip_has_char _ _ Hcomma)).
  simpl. rewrite strip_idempotent, filter_cons, decide_True by done.
  f_equal. apply IH. intros level' Hin. apply Hclean.
  by apply list_elem_of_further.
Qed.

(** ** The dict of a record for the upload *)

(** X13. Popping the optional fields that hold [None] from the dump by
    alias gives the dump by alias that excludes [None]: the dict of a
    record for the upload has the identifier under [_id], has an optional
    field exactly when the record has a value for it, and holds no null. *)
Theorem record_to_dict_excludes_none (record : PineconeRecord) :
  _record_to_dict record = record_model_dump true true record
  ∧ json_get "_id" (_record_to_dict record) = Some (JStr (rec_id record))
  ∧ json_get "parent_id" (_record_to_dict record)
    = JStr <$> rec_parent_id record
  ∧ json_get "statement_notation" (_record_to_dict record)
    = JStr <$> rec_statement_notation record
  ∧ ∃ members,
      _record_to_dict record = JObj members
      ∧ Forall (λ '(_, value), is_null value = false) members.
Proof.
  unfold _record_to_dict, record_model_dump.
  destruct (rec_normalized_subject record), (rec_publication_status record),
    (rec_asn_identifier record), (rec_statement_notation record),
    (rec_statement_label record), (rec_parent_id record);
    (split_and!; [reflexivity..|]); eexists; (split; [reflexivity|]);
    by repeat constructor.
Qed.

(** X14. The two [_record_to_dict], of [tools/pinecone_client.py] and of
    [src/pinecone_client.py], build the same dict for every record: the two
    document fields that only the second lists as optional are never
    [None]. *)
Theorem record_to_dict_same_in_both_clients (record : PineconeRecord) :
  McpClient._record_to_dict record = _record_to_dict record.
Proof.
  unfold McpClient._record_to_dict, _record_to_dict, record_model_dump.
  by destruct (rec_normalized_subject record), (rec_publication_status record),
    (rec_asn_identifier record), (rec_statement_notation record),
    (rec_statement_label record), (rec_parent_id record).
Qed.

(** ** Retries *)

Lemma retry_attempts_calls {A} (func : nat → call_outcome A) (max_retries : Z)
    (attempts : list nat) :
  (calls_of (run_trace (retry_attempts func max_retries attempts))
   ≤ length attempts)%nat
  ∧ Forall (λ e, match e with
                 | Slept seconds => 1 ≤ seconds ≤ 60
                 | Called _ => True
                 end)
           (run_trace (retry_attempts func max_retries attempts)).
Proof.
  induction attempts as [|attempt rest [IHcalls IHsleeps]]; simpl.
  - split; [done|constructor].
  - destruct (func attempt) as [a|status|]; simpl;
      [split; [unfold calls_of; simpl; lia|by repeat constructor]| |
       split; [unfold calls_of; simpl; lia|by repeat constructor]].
    destruct (retryable status); simpl;
      [|split; [unfold calls_of; simpl; lia|by repeat constructor]].
    destruct (Z.of_nat attempt <? max_retries - 1); simpl;
      [|split; [unfold calls_of; simpl; lia|by repeat constructor]].
    split.
    + unfold calls_of in *. simpl. lia.
    + constructor; [done|]. constructor; [|done].
      pose proof (Z.pow_pos_nonneg 2 (Z.of_nat attempt)). lia.
Qed.

(** With an attempt left, the loop does not end without a call and a
    [return] or a [raise]. *)
Lemma retry_attempts_never_falls_off {A} (func : nat → call_outcome A)
    (max_retries : Z) (first count : nat) :
  Z.of_nat (first + count) = max_retries →
  (0 < count)%nat →
  (1 ≤ calls_of (run_trace (retry_attempts func max_retries (seq first count))))%nat
  ∧ run_outcome (retry_attempts func max_retries (seq first count))
    ≠ Returned None.
Proof.
  revert first. induction count as [|count IH]; intros first Hmax Hcount; [lia|].
  simpl. destruct (func first) as [a|status|]; simpl;
    [split; [unfold calls_of; simpl; lia|done]| |
     split; [unfold calls_of; simpl; lia|done]].
  destruct (retryable status); simpl;
    [|split; [unfold calls_of; simpl; lia|done]].
  destruct (Z.ltb_spec (Z.of_nat first) (max_retries - 1)) as [Hlt|Hge]; simpl;
    [|split; [unfold calls_of; simpl; lia|done]].
  destruct (IH (S first)) as [_ Hnone]; [lia..|].
  split; [unfold calls_of; simpl; lia|done].
Qed.

(** X15. [exponential_backoff_retry] calls the function at most
    [max_retries] times and every sleep lasts between 1 and 60 seconds.
    When [max_retries] is not positive the function is not called at all
    and [None] is returned; when it is positive the function is called at
    least once and the loop never ends without its value or an
    exception. *)
Theorem retry_is_bounded {A} (func : nat → call_outcome A) (max_retries : Z) :
  let run := exponential_backoff_retry func max_retries in
  (calls_of (run_trace run) ≤ Z.to_nat max_retries)%nat
  ∧ Forall (λ e, match e with
                 | Slept seconds => 1 ≤ seconds ≤ 60
                 | Called _ => True
                 end)
           (run_trace run)
  ∧ (max_retries ≤ 0 →
     run = {| run_outcome := Returned None; run_trace := [] |})
  ∧ (0 < max_retries →
     (1 ≤ calls_of (run_trace run))%nat ∧ run_outcome run ≠ Returned None).
Proof.
  unfold exponential_backoff_retry. simpl.
  destruct (retry_attempts_calls func max_retries (seq 0 (Z.to_nat max_retries)))
    as [Hcalls Hsleeps].
  rewrite length_seq in Hcalls. split_and!; [done..| |].
  - intros Hle. by replace (Z.to_nat max_retries) with O by lia.
  - intros Hpos. apply retry_attempts_never_falls_off; lia.
Qed.

Lemma failed_attempts_S (first count : nat) :
  failed_attempts first (S count)
  = Called first :: Slept (Z.min (2 ^ Z.of_nat first) 60)
      :: failed_attempts (S first) count.
Proof. done. Qed.

Lemma retry_attempts_run {A} (func : nat → call_outcome A) (max_retries : Z)
    (first count k : nat) :
  Z.of_nat (first + count) = max_retries →
  (first ≤ k < first + count)%nat →
  (∀ j, (first ≤ j < k)%nat → tried_again (func j)) →
  ¬ tried_again (func k) ∨ Z.of_nat k = max_retries - 1 →
  retry_attempts func max_retries (seq first count)
  = {| run_outcome := final_outcome (func k);
       run_trace := failed_attempts first (k - first) ++ [Called k] |}.
Proof.
  revert first. induction count as [|count IH];
    intros first Hmax Hk Hagain Hfinal; [lia|].
  simpl. destruct (decide (k = first)) as [->|Hne].
  - rewrite Nat.sub_diag. simpl.
    destruct (func first) as [a|status|] eqn:Hfunc; [done| |done].
    destruct (retryable status) eqn:Hretry; [|done].
    destruct Hfinal as [Hnot|Hlast].
    + destruct Hnot. by exists status.
    + by rewrite (proj2 (Z.ltb_ge _ _)) by lia.
  - destruct (Hagain first) as (status & Hfunc & Hretry); [lia|].
    rewrite Hfunc, Hretry, (proj2 (Z.ltb_lt _ _)) by lia.
    rewrite (IH (S first)); [|lia|lia| |done].
    + replace (k - first)%nat with (S (k - S first)) by lia.
      by rewrite failed_attempts_S.
    + intros j Hj. apply Hagain. lia.
Qed.

(** X16. [exponential_backoff_retry] stops at the first call that returns,
    raises something other than a [PineconeException] with status 429 or
    500 and above, or is made in the last attempt: it returns or raises
    what that call does, having slept 1, 2, 4, ... seconds, 60 at most,
    after each of the calls before. *)
Theorem retry_stops_at_first_final_call {A} (func : nat → call_outcome A)
    (max_retries : Z) (k : nat) :
  Z.of_nat k < max_retries →
  (∀ j, (j < k)%nat → tried_again (func j)) →
  ¬ tried_again (func k) ∨ Z.of_nat k = max_retries - 1 →
  exponential_backoff_retry func max_retries
  = {| run_outcome := final_outcome (func k);
       run_trace := failed_attempts 0 k ++ [Called k] |}.
Proof.
  intros Hk Hagain Hfinal. unfold exponential_backoff_retry.
  rewrite (retry_attempts_run func max_retries 0 (Z.to_nat max_retries) k);
    [by rewrite Nat.sub_0_r|lia|lia| |done].
  intros j Hj. apply Hagain. lia.
Qed.

Lemma retry_stops_at_first_final_call_third :
  let func : nat → call_outcome string :=
    λ attempt, match attempt with
               | 0%nat => RaisedPinecone (Some 503)
               | 1%nat => RaisedPinecone (Some 429)
               | _ => Returned "done"
               end in
  exponential_backoff_retry func 5
  = {| run_outcome := Returned (Some "done");
       run_trace := [Called 0; Slept 1; Called 1; Slept 2; Called 2] |}.
Proof.
  intros func.
  apply (retry_stops_at_first_final_call func 5 2).
  - lia.
  - intros [|[|j]] Hj; [by exists (Some 503)|by exists (Some 429)|lia].
  - left. by intros (status & Hfunc & _).
Defined.

(** ** Batches *)

(** Cutting a list every [size] elements, [count] times, loses nothing when
    that is enough to reach its end. *)
Lemma chunks_concat {A} (l : list A) (size count : nat) :
  (length l ≤ count * size)%nat →
  concat ((λ k, take size (drop (k * size) l)) <$> seq 0 count) = l.
Proof.
  revert l. induction count as [|count IH]; intros l Hlen.
  - by destruct l; [|simpl in Hlen; lia].
  - rewrite <-cons_seq, <-fmap_S_seq, fmap_cons, <-list_fmap_compose.
    simpl. transitivity (take size l ++ drop size l); [|apply take_drop].
    f_equal. rewrite <-(IH (drop size l)) by (rewrite length_drop; lia).
    f_equal. apply list_fmap_ext. intros _ k _. simpl.
    by rewrite drop_drop.
Qed.

Lemma chunks_sizes {A} (l : list A) (size count : nat) :
  (0 < size)%nat →
  ((count - 1) * size < length l)%nat →
  Forall (λ chunk, (1 ≤ length chunk ≤ size)%nat)
         ((λ k, take size (drop (k * size) l)) <$> seq 0 count).
Proof.
  intros Hsize Hlast. apply Forall_fmap, Forall_forall.
  intros k [_ Hk]%elem_of_seq. simpl.
  rewrite length_take, length_drop. nia.
Qed.

Lemma range_from_zero_count (stop : nat) (step : Z) :
  0 < step →
  let count := Z.to_nat ((Z.of_nat stop + step - 1) `div` step) in
  range_from_zero stop step = (λ k, k * Z.to_nat step)%nat <$> seq 0 count
  ∧ (stop ≤ count * Z.to_nat step)%nat
  ∧ ((0 < stop)%nat → ((count - 1) * Z.to_nat step < stop)%nat).
Proof.
  intros Hstep. simpl. unfold range_from_zero.
  rewrite (proj2 (Z.ltb_lt _ _)) by done. split; [done|].
  pose proof (Z.div_mod (Z.of_nat stop + step - 1) step) as Hdiv.
  pose proof (Z.mod_pos_bound (Z.of_nat stop + step - 1) step Hstep) as Hmod.
  assert (0 ≤ (Z.of_nat stop + step - 1) `div` step) as Hq
    by (apply Z.div_pos; lia).
  split; [nia|]. intros Hstop. nia.
Qed.

Lemma batches_of_records (records : list PineconeRecord) (batch_size : Z) :
  0 < batch_size →
  concat (batches_of records batch_size) = records
  ∧ Forall (λ batch, 1 ≤ Z.of_nat (length batch) ≤ batch_size)
           (batches_of records batch_size)
  ∧ Z.of_nat (length (batches_of records batch_size))
    = (Z.of_nat (length records) + batch_size - 1) `div` batch_size.
Proof.
  intros Hsize. unfold batches_of.
  destruct (range_from_zero_count (length records) batch_size Hsize)
    as (-> & Hreach & Hlast).
  rewrite <-list_fmap_compose. unfold compose. split_and!.
  - by apply chunks_concat.
  - destruct records as [|record records].
    + simpl length. rewrite Z.div_small by lia. constructor.
    + eapply Forall_impl;
        [apply chunks_sizes; [lia|apply Hlast; simpl; lia]|].
      simpl. intros batch. lia.
  - rewrite length_fmap, length_seq, Z2Nat.id; [done|].
    apply Z.div_pos; lia.
Qed.

Lemma upserts_of_retry_events (batch_dicts : list json) (trace : list retry_event) :
  upserts_of (upload_event_of batch_dicts <$> trace)
  = replicate (calls_of trace) batch_dicts.
Proof.
  unfold upserts_of, calls_of, attempts_of.
  induction trace as [|e trace IH]; [done|]. rewrite fmap_cons.
  destruct e as [attempt|seconds]; simpl; [f_equal|]; apply IH.
Qed.

(** A call that returns at once ends the retry. *)
Lemma retry_first_call_returns {A} (func : nat → call_outcome A)
    (max_retries : Z) (a : A) :
  0 < max_retries →
  func 0%nat = Returned a →
  exponential_backoff_retry func max_retries
  = {| run_outcome := Returned (Some a); run_trace := [Called 0] |}.
Proof.
  intros Hmax Hfunc. unfold exponential_backoff_retry.
  rewrite (retry_attempts_run func max_retries 0 (Z.to_nat max_retries) 0);
    [by rewrite Hfunc|lia|lia|intros j; lia|].
  left. intros (status & Hraised & _). by rewrite Hfunc in Hraised.
Qed.

(** The loop of [batch_upsert] when the index accepts every call. *)
Lemma upsert_batches_all_accepted
    (upsert_records : nat → list json → call_outcome unit)
    (records : list PineconeRecord) (batch_size : Z) (starts : list nat)
    (calls : nat) :
  (∀ n batch, upsert_records n batch = Returned ()) →
  ∃ events,
    upsert_batches upsert_records records batch_size starts calls
      = (inr (), events)
    ∧ upserts_of events
      = (λ i, _record_to_dict <$> take (Z.to_nat batch_size) (drop i records))
          <$> starts
    ∧ Forall (λ e, ∀ seconds, e ≠ Backoff seconds) events.
Proof.
  intros Haccepted. revert calls.
  induction starts as [|i rest IH]; intros calls; simpl.
  - exists []. by split_and!.
  - rewrite (retry_first_call_returns _ _ ()) by (done || apply Haccepted).
    simpl.
    destruct (IH (calls + calls_of [Called 0])%nat) as (later & -> & Hsent & Hquiet).
    eexists. split; [reflexivity|]. split.
    + unfold upserts_of in *. simpl. rewrite omap_app, Hsent.
      by destruct (_ <? _).
    + constructor; [done|]. apply Forall_app. split; [|done].
      destruct (_ <? _); by repeat constructor.
Qed.

(** X17. When the batch size is positive and the index accepts every call,
    [batch_upsert] returns normally without a retry, and the lists it
    hands to the index, put end to end, are the dicts of all the records in
    order; none is empty or longer than the batch size, and their number is
    the length of the records over the batch size, rounded up. *)
Theorem batch_upsert_sends_every_record_once
    (upsert_records : nat → list json → call_outcome unit)
    (records : list PineconeRecord) (batch_size : Z) :
  0 < batch_size →
  (∀ n batch, upsert_records n batch = Returned ()) →
  ∃ events,
    batch_upsert upsert_records records batch_size = (inr (), events)
    ∧ concat (upserts_of events) = _record_to_dict <$> records
    ∧ Forall (λ batch, 1 ≤ Z.of_nat (length batch) ≤ batch_size)
             (upserts_of events)
    ∧ Z.of_nat (length (upserts_of events))
      = (Z.of_nat (length records) + batch_size - 1) `div` batch_size
    ∧ Forall (λ e, ∀ seconds, e ≠ Backoff seconds) events.
Proof.
  intros Hsize Haccepted.
  destruct (batches_of_records records batch_size Hsize)
    as (Hconcat & Hsizes & Hcount).
  destruct (upsert_batches_all_accepted upsert_records records batch_size
              (range_from_zero (length records) batch_size) 0 Haccepted)
    as (events & Hrun & Hsent & Hquiet).
  assert (upserts_of events
          = (λ batch : list PineconeRecord, _record_to_dict <$> batch)
              <$> batches_of records batch_size) as Hbatches.
  { rewrite Hsent. unfold batches_of. by rewrite <-list_fmap_compose. }
  destruct records as [|record records].
  - exists []. simpl. split_and!; [done|done|constructor| |constructor].
    symmetry. apply Z.div_small. lia.
  - exists events. unfold batch_upsert.
    rewrite (proj2 (Z.eqb_neq _ _)) by lia.
    rewrite Hrun, Hbatches. split_and!; [done| | | |done].
    + rewrite <-Hconcat at 2. generalize (batches_of (record :: records) batch_size).
      intros batches. induction batches as [|batch batches IH]; [done|].
      rewrite fmap_cons. cbn [concat]. rewrite fmap_app. f_equal. exact IH.
    + apply Forall_fmap. eapply Forall_impl; [exact Hsizes|].
      intros batch. simpl. by rewrite length_fmap.
    + by rewrite length_fmap.
Qed.

Lemma batch_upsert_sends_every_record_once_example :
  ∃ events,
    batch_upsert (λ _ _, Returned ()) (replicate 5 (mkPineconeRecord
      "id" "c" "s" "t" "u" None [] "d" "v" None "j" "k" None None None 0
      true true None "id" [] [] 0)) 2 = (inr (), events)
    ∧ length <$> upserts_of events = [2; 2; 1]%nat.
Proof.
  destruct (batch_upsert_sends_every_record_once (λ _ _, Returned ())
              (replicate 5 (mkPineconeRecord
                 "id" "c" "s" "t" "u" None [] "d" "v" None "j" "k" None None
                 None 0 true true None "id" [] [] 0)) 2)
    as (events & Hrun & _); [lia|done|].
  exists events. split; [exact Hrun|].
  vm_compute in Hrun. by injection Hrun as <-.
Defined.

(** The loop of [batch_upsert] whatever the index answers: the batches go
    out in order, each between one and five times, up to the one that
    fails.  [counts] tells how often each batch that goes out is sent; the
    retries of a batch begin at the call that follows those of the batches
    before, and only the retries of the last batch that goes out may end
    with an exception, which is then the outcome of the loop. *)
Lemma upsert_batches_in_order
    (upsert_records : nat → list json → call_outcome unit)
    (records : list PineconeRecord) (batch_size : Z) (starts : list nat)
    (calls : nat) :
  ∃ counts : list nat,
    (length counts ≤ length starts)%nat
    ∧ Forall (λ count, (1 ≤ count ≤ 5)%nat) counts
    ∧ upserts_of (upsert_batches upsert_records records batch_size starts calls).2
      = concat
          (zip_with replicate counts
             ((λ i, _record_to_dict
                      <$> take (Z.to_nat batch_size) (drop i records))
                <$> starts))
    ∧ ((upsert_batches upsert_records records batch_size starts calls).1
         = inr () →
       length counts = length starts)
    ∧ (counts = [] →
       (upsert_batches upsert_records records batch_size starts calls).1
       = inr ())
    ∧ (∀ i count batch_dicts,
         counts !! i = Some count →
         ((λ i, _record_to_dict
                  <$> take (Z.to_nat batch_size) (drop i records))
            <$> starts) !! i = Some batch_dicts →
         let run :=
           exponential_backoff_retry
             (λ attempt,
                upsert_records (calls + sum_list (take i counts) + attempt)%nat
                  batch_dicts)
             default_max_retries in
         calls_of (run_trace run) = count
         ∧ ((S i < length counts)%nat → run_outcome run = Returned (Some ()))
         ∧ (S i = length counts →
            (upsert_batches upsert_records records batch_size starts calls).1
            = upload_result (run_outcome run))).
Proof.
  revert calls. induction starts as [|i rest IH]; intros calls.
  - exists []. split_and!; [done..|]. by intros i count batch_dicts.
  - cbn [upsert_batches].
    set (batch_dicts :=
           _record_to_dict <$> take (Z.to_nat batch_size) (drop i records)).
    set (run := exponential_backoff_retry _ default_max_retries).
    assert ((1 ≤ calls_of (run_trace run) ≤ 5)%nat
            ∧ run_outcome run ≠ Returned None) as [Hcalls Hnone].
    { subst run. unfold exponential_backoff_retry.
      change (Z.to_nat default_max_retries) with 5%nat.
      destruct (retry_attempts_never_falls_off
                  (λ attempt, upsert_records (calls + attempt)%nat batch_dicts)
                  default_max_retries 0 5) as [Hge Hnone]; [done|lia|].
      destruct (retry_attempts_calls
                  (λ attempt, upsert_records (calls + attempt)%nat batch_dicts)
                  default_max_retries (seq 0 5)) as [Hle _].
      by split. }
    assert (∀ first, first = calls →
              exponential_backoff_retry
                (λ attempt, upsert_records (first + attempt)%nat batch_dicts)
                default_max_retries = run) as Hrun by by intros ? ->.
    clearbody run.
    destruct (run_outcome run) as [[[]|]|status|] eqn:Houtcome; [|done|..].
    + destruct (IH (calls + calls_of (run_trace run))%nat)
        as (counts & Hlen & Hbounds & Hsent & Hall & Hnil & Hruns).
      destruct (upsert_batches upsert_records records batch_size rest _)
        as [outcome later].
      exists (calls_of (run_trace run) :: counts). simpl in *. split_and!.
      * lia.
      * by constructor.
      * unfold upserts_of in *. rewrite !omap_app.
        fold (upserts_of (upload_event_of batch_dicts <$> run_trace run)).
        rewrite upserts_of_retry_events, Hsent. f_equal.
        by destruct (_ <? _).
      * intros Hok. by rewrite Hall.
      * done.
      * intros [|j] count dicts Hcount Hdicts; simpl in Hcount, Hdicts.
        -- injection Hcount as <-. injection Hdicts as <-.
           rewrite Hrun by (simpl; lia). rewrite Houtcome.
           split_and!; [done..|].
           intros Hlast. simpl. apply Hnil.
           destruct counts; [done|simpl in Hlast; lia].
        -- destruct (Hruns j count dicts Hcount Hdicts) as (Hc & Hmid & Hlast).
           replace (calls + sum_list (take (S j)
                                        (calls_of (run_trace run) :: counts)))%nat
             with (calls + calls_of (run_trace run)
                   + sum_list (take j counts))%nat by (simpl; lia).
           split_and!; [done| |].
           ++ intros Hlt. apply Hmid. lia.
           ++ intros Heq. apply Hlast. lia.
    + exists [calls_of (run_trace run)]. simpl. split_and!; [lia| | |done..|].
      * by constructor.
      * by rewrite upserts_of_retry_events, app_nil_r.
      * intros [|j] count dicts Hcount Hdicts; simpl in Hcount, Hdicts;
          [|done].
        injection Hcount as <-. injection Hdicts as <-.
        rewrite Hrun by (simpl; lia). rewrite Houtcome.
        split_and!; [done|lia|done].
    + exists [calls_of (run_trace run)]. simpl. split_and!; [lia| | |done..|].
      * by constructor.
      * by rewrite upserts_of_retry_events, app_nil_r.
      * intros [|j] count dicts Hcount Hdicts; simpl in Hcount, Hdicts;
          [|done].
        injection Hcount as <-. injection Hdicts as <-.
        rewrite Hrun by (simpl; lia). rewrite Houtcome.
        split_and!; [done|lia|done].
Qed.

(** X18. Whatever the index answers, [batch_upsert] with a positive batch
    size hands the batches to the index in order, each one between one and
    five times, and stops at the batch that fails: batches sent before are
    not taken back and later ones are not sent.  [counts] tells how often
    each batch that goes out is sent.  The retries of a batch begin at the
    call that follows those of the batches before; those of every batch
    but the last that goes out end with a call that returns, and those of
    the last one decide the outcome: when they end with an exception it is
    raised and nothing more is sent, and when the upload returns normally
    every batch has been sent. *)
Theorem batch_upsert_sends_batches_in_order
    (upsert_records : nat → list json → call_outcome unit)
    (records : list PineconeRecord) (batch_size : Z) :
  0 < batch_size →
  ∃ counts : list nat,
    (length counts ≤ length (batches_of records batch_size))%nat
    ∧ Forall (λ count, (1 ≤ count ≤ 5)%nat) counts
    ∧ upserts_of (batch_upsert upsert_records records batch_size).2
      = concat
          (zip_with replicate counts
             ((λ batch : list PineconeRecord, _record_to_dict <$> batch)
                <$> batches_of records batch_size))
    ∧ ((batch_upsert upsert_records records batch_size).1 = inr () →
       length counts = length (batches_of records batch_size))
    ∧ (counts = [] →
       (batch_upsert upsert_records records batch_size).1 = inr ())
    ∧ (∀ i count batch,
         counts !! i = Some count →
         batches_of records batch_size !! i = Some batch →
         let run :=
           exponential_backoff_retry
             (λ attempt,
                upsert_records (sum_list (take i counts) + attempt)%nat
                  (_record_to_dict <$> batch))
             default_max_retries in
         calls_of (run_trace run) = count
         ∧ ((S i < length counts)%nat → run_outcome run = Returned (Some ()))
         ∧ (S i = length counts →
            (batch_upsert upsert_records records batch_size).1
            = upload_result (run_outcome run))).
Proof.
  intros Hsize. unfold batch_upsert, batches_of.
  destruct records as [|record records].
  - exists []. simpl length. unfold range_from_zero.
    rewrite Z.div_small by lia. destruct (0 <? batch_size); by split_and!.
  - rewrite (proj2 (Z.eqb_neq _ _)) by lia.
    rewrite <-list_fmap_compose. unfold compose.
    rewrite length_fmap.
    destruct (upsert_batches_in_order upsert_records (record :: records)
                batch_size
                (range_from_zero (length (record :: records)) batch_size) 0)
      as (counts & Hlen & Hbounds & Hsent & Hall & Hnil & Hruns).
    exists counts. split_and!; [done..|].
    intros i count batch Hcount Hbatch.
    apply (Hruns i count (_record_to_dict <$> batch) Hcount).
    apply list_lookup_fmap_Some in Hbatch as (start & -> & Hstart).
    apply list_lookup_fmap_Some. by exists start.
Qed.

Lemma batch_upsert_sends_batches_in_order_example :
  let record :=
    mkPineconeRecord "id" "c" "s" "t" "u" None [] "d" "v" None "j" "k" None
      None None 0 true true None "id" [] [] 0 in
  let upsert_records : nat → list json → call_outcome unit :=
    λ n _, match n with
           | 1%nat => RaisedPinecone (Some 503)
           | 3%nat => RaisedPinecone (Some 400)
           | _ => Returned ()
           end in
  (batch_upsert upsert_records (replicate 5 record) 2).1
    = inl (PineconeException (Some 400))
  ∧ length <$> upserts_of (batch_upsert upsert_records (replicate 5 record) 2).2
    = [2; 2; 2; 1]%nat.
Proof.
  intros record upsert_records.
  destruct (batch_upsert_sends_batches_in_order upsert_records
              (replicate 5 record) 2) as (counts & _); [lia|].
  by vm_compute.
Defined.

(** X19. [batch_upsert] with no records returns at once.  With records and
    a batch size of zero it raises [ZeroDivisionError] before any call to
    the index; with a negative batch size it returns normally without
    having called the index at all. *)
Theorem batch_upsert_without_batches
    (upsert_records : nat → list json → call_outcome unit)
    (records : list PineconeRecord) (batch_size : Z) :
  batch_upsert upsert_records [] batch_size = (inr (), [])
  ∧ (records ≠ [] →
     batch_upsert upsert_records records 0 = (inl ZeroDivisionError, []))
  ∧ (records ≠ [] → batch_size < 0 →
     batch_upsert upsert_records records batch_size = (inr (), [])).
Proof.
  split_and!; [done|..].
  - by destruct records.
  - intros Hrecords Hsize. destruct records; [done|]. unfold batch_upsert.
    rewrite (proj2 (Z.eqb_neq _ _)) by lia. unfold range_from_zero.
    by rewrite (proj2 (Z.ltb_ge _ _)) by lia.
Qed.

(** ** The filter of standard sets *)

Lemma truthy_given (v : option string) :
  PyStr.truthy v = true ↔ ∃ s, given v s.
Proof.
  unfold given. destruct v as [s|]; simpl.
  - destruct (String.eqb_spec s ""); split; try done.
    + by intros (s' & [= <-] & ?).
    + intros _. by exists s.
  - split; [done|]. by intros (s & ? & _).
Qed.

Lemma common_level (upper : string → string) (have wanted : list string) :
  (list_to_set (upper <$> have) : gset string) ∩ list_to_set (upper <$> wanted) ≠ ∅
  ↔ ∃ a b, a ∈ have ∧ b ∈ wanted ∧ upper a = upper b.
Proof.
  split.
  - intros [level Hlevel]%set_choose_L. revert Hlevel.
    rewrite elem_of_intersection, !elem_of_list_to_set, !list_elem_of_fmap.
    intros [(a & -> & Ha) (b & Hab & Hb)]. by exists a, b.
  - intros (a & b & Ha & Hb & Hab) Hempty.
    apply (proj1 (elem_of_equiv_empty_L _) Hempty (upper a)).
    rewrite elem_of_intersection, !elem_of_list_to_set, !list_elem_of_fmap.
    split; [by exists a|by exists b].
Qed.

(** X20. [_filter_standard_set] is the conjunction of its five criteria,
    each one in force only when its argument is given and not empty: a
    level shared with the set, compared in upper case; the publication
    status of the document, compared in lower case and only when the
    document has one; the year of the document; the title and the subject
    holding the search text, compared in lower case. *)
Theorem filter_standard_set_is_conjunction (lower upper : string → string)
    (standard_set : StandardSetReference)
    (education_levels : option (list string))
    (publication_status valid_year title_search subject_search : option string) :
  _filter_standard_set lower upper standard_set education_levels
    publication_status valid_year title_search subject_search = true
  ↔ (∀ levels, education_levels = Some levels → levels ≠ [] →
       ∃ a b, a ∈ ref_educationLevels standard_set ∧ b ∈ levels
              ∧ upper a = upper b)
    ∧ (∀ wanted status,
         given publication_status wanted →
         given (doc_publicationStatus (ref_document standard_set)) status →
         lower status = lower wanted)
    ∧ (∀ year, given valid_year year →
         doc_valid (ref_document standard_set) = Some year)
    ∧ (∀ text, given title_search text →
         contains (lower text) (lower (ref_title standard_set)) = true)
    ∧ (∀ text, given subject_search text →
         contains (lower text) (lower (ref_subject standard_set)) = true).
Proof.
  unfold _filter_standard_set.
  assert (∀ (v : option string) (test : string → bool),
            (PyStr.truthy v && negb (test (default "" v)) = false)
            ↔ ∀ s, given v s → test s = true) as Hcriterion.
  { intros v test. split.
    - intros Hfalse s [-> Hs]. simpl in Hfalse.
      destruct (String.eqb_spec s ""); [done|]. simpl in Hfalse.
      by destruct (test s).
    - intros Htest. destruct (PyStr.truthy v) eqn:Hv; [|done].
      apply truthy_given in Hv as [s Hs].
      pose proof (Htest s Hs) as Hs'. destruct Hs as [-> _]. simpl.
      by rewrite Hs'. }
  assert ((match education_levels with
           | Some (level :: levels) =>
               bool_decide
                 ((list_to_set (upper <$> ref_educationLevels standard_set)
                     : gset string)
                    ∩ list_to_set (upper <$> level :: levels) = ∅)
           | _ => false
           end = false)
          ↔ (∀ levels, education_levels = Some levels → levels ≠ [] →
               ∃ a b, a ∈ ref_educationLevels standard_set ∧ b ∈ levels
                      ∧ upper a = upper b)) as Hlevels.
  { destruct education_levels as [[|level levels]|].
    - split; [|done]. by intros _ levels [= <-].
    - rewrite bool_decide_eq_false, common_level. split.
      + by intros Hcommon levels' [= <-] _.
      + intros Hcommon. by apply (Hcommon (level :: levels)).
    - by split. }
  assert ((PyStr.truthy publication_status
           && PyStr.truthy (doc_publicationStatus (ref_document standard_set))
           && negb (String.eqb
                      (lower (default "" (doc_publicationStatus
                                            (ref_document standard_set))))
                      (lower (default "" publication_status))) = false)
          ↔ (∀ wanted status,
               given publication_status wanted →
               given (doc_publicationStatus (ref_document standard_set)) status →
               lower status = lower wanted)) as Hstatus.
  { split.
    - intros Hfalse wanted status [Hwanted ?] [Hstatus ?].
      rewrite Hwanted, Hstatus in Hfalse. simpl in Hfalse.
      destruct (String.eqb_spec wanted ""), (String.eqb_spec status "");
        try done.
      simpl in Hfalse.
      by destruct (String.eqb_spec (lower status) (lower wanted)).
    - intros Hsame.
      destruct (PyStr.truthy publication_status) eqn:Hp; [|done].
      destruct (PyStr.truthy (doc_publicationStatus _)) eqn:Hd; [|done].
      apply truthy_given in Hp as [wanted Hwanted].
      apply truthy_given in Hd as [status Hstatus].
      pose proof (Hsame wanted status Hwanted Hstatus) as Heq.
      destruct Hwanted as [-> _], Hstatus as [-> _]. simpl.
      rewrite Heq. by rewrite String.eqb_refl. }
  assert ((PyStr.truthy valid_year
           && negb (bool_decide (doc_valid (ref_document standard_set)
                                 = valid_year)) = false)
          ↔ (∀ year, given valid_year year →
               doc_valid (ref_document standard_set) = Some year)) as Hyear.
  { destruct valid_year as [year|]; simpl.
    - destruct (String.eqb_spec year ""); simpl.
      + split; [|done]. by intros _ year' [[= <-] ?].
      + rewrite negb_false_iff, bool_decide_eq_true. split.
        * by intros Hvalid year' [[= <-] _].
        * intros Hvalid. by apply Hvalid.
    - split; [|done]. by intros _ year [? _]. }
  pose proof (Hcriterion title_search
                (λ text, contains (lower text)
                                  (lower (ref_title standard_set)))) as Htitle.
  pose proof (Hcriterion subject_search
                (λ text, contains (lower text)
                                  (lower (ref_subject standard_set))))
    as Hsubject.
  cbv beta in Htitle, Hsubject.
  rewrite <-Hlevels, <-Hstatus, <-Hyear, <-Htitle, <-Hsubject.
  clear Hcriterion Hlevels Hstatus Hyear Htitle Hsubject.
  destruct (match education_levels with
            | Some (level :: levels) => _
            | _ => false
            end); [by intuition|].
  destruct (PyStr.truthy publication_status && _ && _); [by intuition|].
  destruct (PyStr.truthy valid_year && _); [by intuition|].
  destruct (PyStr.truthy title_search && _); [by intuition|].
  destruct (PyStr.truthy subject_search && _); by intuition.
Qed.

(** X21. The two document criteria treat a missing value differently,
    each on its own.  A set whose document has no publication status passes
    every publication-status filter: the outcome of the filter is the one
    without the publication-status argument, whatever the other arguments
    are.  A set whose document has no year fails every year filter that is
    not empty, whatever the other arguments are. *)
Theorem filter_passes_missing_status_fails_missing_year
    (lower upper : string → string) (standard_set : StandardSetReference)
    (education_levels : option (list string))
    (publication_status valid_year title_search subject_search : option string)
    (wanted : string) :
  (doc_publicationStatus (ref_document standard_set) = None →
   _filter_standard_set lower upper standard_set None (Some wanted) None None
     None = true
   ∧ _filter_standard_set lower upper standard_set education_levels
       (Some wanted) valid_year title_search subject_search
     = _filter_standard_set lower upper standard_set education_levels
         None valid_year title_search subject_search)
  ∧ (doc_valid (ref_document standard_set) = None →
     wanted ≠ "" →
     _filter_standard_set lower upper standard_set education_levels
       publication_status (Some wanted) title_search subject_search
     = false).
Proof.
  split.
  - intros Hstatus. unfold _filter_standard_set. rewrite Hstatus. simpl.
    by rewrite !andb_false_r.
  - intros Hvalid Hwanted. unfold _filter_standard_set. rewrite Hvalid.
    simpl. destruct (String.eqb_spec wanted ""); [done|]. simpl.
    destruct (match education_levels with
              | Some (level :: levels) => _
              | _ => false
              end); [done|].
    by destruct (PyStr.truthy publication_status && _ && _).
Qed.

Lemma filter_passes_missing_status_fails_missing_year_bare :
  _filter_standard_set id id bare_reference None (Some "Published") None None
    None = true
  ∧ _filter_standard_set id id bare_reference None None (Some "2021") None
      None = false.
Proof.
  split.
  - by apply (filter_passes_missing_status_fails_missing_year id id
                bare_reference None None None None None "Published").
  - by apply (filter_passes_missing_status_fails_missing_year id id
                bare_reference None None None None None "2021").
Defined.

Lemma download_each_sublist (download_standard_set : nat → string → bool)
    (filtered_sets : list StandardSetReference) (calls : nat) :
  download_each download_standard_set filtered_sets calls
    `sublist_of` ref_id <$> filtered_sets.
Proof.
  revert calls.
  induction filtered_sets as [|standard_set rest IH]; intros calls; simpl.
  - constructor.
  - destruct (download_standard_set calls (ref_id standard_set)).
    + by apply sublist_skip.
    + by apply sublist_cons.
Qed.

Lemma download_each_all (download_standard_set : nat → string → bool)
    (filtered_sets : list StandardSetReference) (calls : nat) :
  (∀ n set_id, download_standard_set n set_id = true) →
  download_each download_standard_set filtered_sets calls
  = ref_id <$> filtered_sets.
Proof.
  intros Hall. revert calls.
  induction filtered_sets as [|standard_set rest IH]; intros calls; simpl.
  - done.
  - by rewrite Hall, IH.
Qed.

(** Every set left by the filter is asked for once, in order, and its id
    is returned when its download returns. *)
Lemma download_each_returned (download_standard_set : nat → string → bool)
    (filtered_sets : list StandardSetReference) (calls : nat) :
  download_each download_standard_set filtered_sets calls
  = (λ asked, ref_id asked.2)
      <$> filter (λ asked, download_standard_set asked.1 (ref_id asked.2) = true)
                 (zip (seq calls (length filtered_sets)) filtered_sets).
Proof.
  revert calls.
  induction filtered_sets as [|standard_set rest IH]; intros calls; [done|].
  cbn [download_each length seq zip zip_with]. rewrite filter_cons. simpl.
  destruct (download_standard_set calls (ref_id standard_set)).
  - rewrite decide_True by done. rewrite fmap_cons. simpl. f_equal. apply IH.
  - rewrite decide_False by done. apply IH.
Qed.

(** X22. [download_standard_sets_by_jurisdiction] asks for every set of the
    jurisdiction that passes the filter, once and in the order of the
    jurisdiction, the [k]-th download being that of the [k]-th set that
    passes, and returns the ids of those whose download returns: a failed
    download leaves its own id out and does not stop the others.  So the
    ids returned are, in order, among those of the sets that pass, and when
    no download fails they are all of them. *)
Theorem downloaded_ids_are_filtered_sets_in_order
    (lower upper : string → string)
    (download_standard_set : nat → string → bool)
    (standard_sets : list StandardSetReference)
    (education_levels : option (list string))
    (publication_status valid_year title_search subject_search : option string) :
  let passing :=
    filter (λ s, _filter_standard_set lower upper s education_levels
                   publication_status valid_year title_search subject_search
                 = true)
           standard_sets in
  let downloaded :=
    download_standard_sets_by_jurisdiction lower upper download_standard_set
      standard_sets education_levels publication_status valid_year
      title_search subject_search in
  downloaded
  = (λ asked, ref_id asked.2)
      <$> filter (λ asked, download_standard_set asked.1 (ref_id asked.2) = true)
                 (zip (seq 0 (length passing)) passing)
  ∧ downloaded `sublist_of` ref_id <$> passing
  ∧ ((∀ n set_id, download_standard_set n set_id = true) →
     downloaded = ref_id <$> passing).
Proof.
  intros passing downloaded. subst passing downloaded.
  unfold download_standard_sets_by_jurisdiction.
  assert (filter (λ s, Is_true (_filter_standard_set lower upper s
                                  education_levels publication_status
                                  valid_year title_search subject_search))
                 standard_sets
          = filter (λ s, _filter_standard_set lower upper s education_levels
                           publication_status valid_year title_search
                           subject_search = true)
                   standard_sets) as ->.
  { apply list_filter_iff. intros s. apply Is_true_true. }
  split_and!.
  - apply download_each_returned.
  - apply download_each_sublist.
  - intros Hall. by apply download_each_all.
Qed.
